(** * Consistency of two regular properties given as DFAs

    A shallow embedding of [task1.py] (class [DFA], [parse_dfa_json],
    [intersect_dfa], [is_language_empty], [check_consistency]) and the
    properties of its specification that hold of it.

    Python dictionaries are finite maps ([gmap]), the [visited] set is a
    finite set ([gset]), lists and the deque are lists, an exception is a
    result of the run.  The [while] loop of [is_language_empty] is defined by
    well-founded recursion, so that the embedded function is total.  The
    standard library's [json.loads] is a parameter of the functions that
    call it. *)

From stdpp Require Import gmap strings list.
From Equations Require Import Equations.
From Equations.Prop Require Import Logic.

Set Default Proof Using "Type".
#[local] Set Warnings "-clear-no-such-hyp".

(** ** Python values *)

(** The hashable values the program uses as state identifiers, as alphabet
    symbols and as dictionary keys: a string, or the 2-tuple [(s1, s2)] that
    [intersect_dfa] builds. *)
Inductive value : Type :=
| Str (s : string)
| Tup (a b : value).

#[global] Instance value_eq_dec : EqDecision value.
Proof. solve_decision. Defined.

Fixpoint value_to_tree (v : value) : gen_tree string :=
  match v with
  | Str s => GenLeaf s
  | Tup a b => GenNode 0 [value_to_tree a; value_to_tree b]
  end.

Fixpoint tree_to_value (t : gen_tree string) : option value :=
  match t with
  | GenLeaf s => Some (Str s)
  | GenNode _ [a; b] =>
      match tree_to_value a, tree_to_value b with
      | Some x, Some y => Some (Tup x y)
      | _, _ => None
      end
  | GenNode _ _ => None
  end.

#[global] Instance value_countable : Countable value.
Proof.
  apply (inj_countable value_to_tree tree_to_value).
  intros v. induction v as [s|a IHa b IHb]; simpl; [done|].
  by rewrite IHa, IHb.
Defined.

#[global] Instance Str_inj : Inj (=) (=) Str.
Proof. by intros s1 s2 [= ->]. Qed.

(** The exceptions the program can raise: [KeyError] carries the missing key
    (as Python's [KeyError.args[0]] does), [TypeError] is what subscripting a
    value that is not a dictionary with a string raises, and
    [JSONDecodeError] is what [json.loads] raises on a string that is not
    the text of a JSON document. *)
Inductive exn : Type :=
| KeyError (k : value)
| TypeError
| JSONDecodeError.

#[global] Instance exn_eq_dec : EqDecision exn.
Proof. solve_decision. Defined.

(** The result of running a piece of the program.  [Untyped] is not a Python
    result: it marks a run that left the typed fragment of this embedding,
    because an attribute of a decoded DFA does not have the type the
    description format gives it (a list of names, a name, a table).  Python
    goes on duck-typed there; the embedding does not follow it. *)
Inductive outcome (A : Type) : Type :=
| Return (a : A)
| Raise (e : exn)
| Untyped.
Arguments Return {A} a.
Arguments Raise {A} e.
Arguments Untyped {A}.

#[global] Instance outcome_eq_dec `{EqDecision A} : EqDecision (outcome A).
Proof. solve_decision. Defined.

#[global] Instance outcome_ret : MRet outcome := @Return.
#[global] Instance outcome_bind : MBind outcome := λ A B k m,
  match m with
  | Return a => k a
  | Raise e => Raise e
  | Untyped => Untyped
  end.
#[global] Instance outcome_fmap : FMap outcome := λ A B f m,
  match m with
  | Return a => Return (f a)
  | Raise e => Raise e
  | Untyped => Untyped
  end.

(** [d[k]] on a dictionary: the value, or [KeyError(k)]. *)
Definition subscript {V : Type} (d : gmap value V) (k : value) : outcome V :=
  match d !! k with
  | Some v => Return v
  | None => Raise (KeyError k)
  end.

(** ** JSON documents *)

(** What [json.loads] returns: the decoded document.  A decoded object is a
    dictionary with string keys.  Numerals are integers here; the program
    never computes with a number.

    [json.loads] itself is the standard library's, not the program's.  The
    functions that call it, [parse_dfa_json] and through it
    [check_consistency], take it as a parameter [json_loads], on a type
    [str] of the strings they are given: applied to a string it returns the
    decoded document or raises. *)
#[warnings="-register-all"]
Inductive json : Type :=
| JNull
| JBool (b : bool)
| JNum (n : Z)
| JStr (s : string)
| JArr (l : list json)
| JObj (o : gmap string json).

(** [data[key]] for a string [key]: a dictionary answers or raises
    [KeyError]; a list, a string, a number, a boolean and [None] raise
    [TypeError]. *)
Definition json_subscript (data : json) (key : string) : outcome json :=
  match data with
  | JObj o =>
      match o !! key with
      | Some v => Return v
      | None => Raise (KeyError (Str key))
      end
  | _ => Raise TypeError
  end.

(** ** class DFA *)

(** The class stores its five constructor arguments as they are.  The
    attribute types are parameters of the record: [parse_dfa_json] fills it
    with decoded JSON values, the later functions read lists of values, a
    value and a dictionary of dictionaries. *)
Record DFA_of (L Q T : Type) : Type := mkDFA {
  states : L;
  alphabet : L;
  start_state : Q;
  accept_states : L;
  (* transitions[state][symbol] -> next_state *)
  transitions : T
}.
Arguments mkDFA {L Q T} _ _ _ _ _.
Arguments states {L Q T} _.
Arguments alphabet {L Q T} _.
Arguments start_state {L Q T} _.
Arguments accept_states {L Q T} _.
Arguments transitions {L Q T} _.

#[global] Instance DFA_of_eq_dec `{EqDecision L, EqDecision Q, EqDecision T} :
  EqDecision (DFA_of L Q T).
Proof. solve_decision. Defined.

Abbreviation table := (gmap value (gmap value value)).
Abbreviation DFA := (DFA_of (list value) value table).
Abbreviation DFA_json := (DFA_of json json json).

(** ** parse_dfa_json *)

Definition parse_dfa_json {str : Type} (json_loads : str → outcome json)
    (dfa_json_str : str) : outcome DFA_json :=
  data ← json_loads dfa_json_str;
  states ← json_subscript data "states";
  alphabet ← json_subscript data "alphabet";
  start_state ← json_subscript data "start_state";
  accept_states ← json_subscript data "accept_states";
  transitions ← json_subscript data "transitions";
  Return (mkDFA states alphabet start_state accept_states transitions).

(** *** Reading the attributes at their types *)

Definition as_name (j : json) : option value :=
  match j with
  | JStr s => Some (Str s)
  | _ => None
  end.

Definition as_names (j : json) : option (list value) :=
  match j with
  | JArr l => mapM as_name l
  | _ => None
  end.

Definition as_row (j : json) : option (gmap value value) :=
  match j with
  | JObj o =>
      if decide (map_Forall (λ _ v, is_Some (as_name v)) o)
      then Some (kmap Str (omap as_name o))
      else None
  | _ => None
  end.

Definition as_table (j : json) : option table :=
  match j with
  | JObj o =>
      if decide (map_Forall (λ _ v, is_Some (as_row v)) o)
      then Some (kmap Str (omap as_row o))
      else None
  | _ => None
  end.

(** The DFA object with its attributes read at the types of the description
    format: lists of state names, a state name, and a dictionary from state
    names to dictionaries from symbols to state names. *)
Definition typed (raw : DFA_json) : outcome DFA :=
  match as_names (states raw), as_names (alphabet raw),
        as_name (start_state raw), as_names (accept_states raw),
        as_table (transitions raw) with
  | Some s, Some a, Some q, Some f, Some t => Return (mkDFA s a q f t)
  | _, _, _, _, _ => Untyped
  end.

(** ** intersect_dfa *)

(** [dfa.transitions[state][symbol]], the transition lookup of both
    [intersect_dfa] and [is_language_empty]. *)
Definition lookup_transition (dfa : DFA) (state symbol : value) : outcome value :=
  row ← subscript (transitions dfa) state;
  subscript row symbol.

(** The first pair of loops: [new_states], in the order of the appends. *)
Definition product_states (dfa1 dfa2 : DFA) : list (value * value) :=
  s1 ← states dfa1; s2 ← states dfa2; [(s1, s2)].

(** The inner [for symbol in dfa1.alphabet] of the second loop, for one
    tuple-state, over the symbols that remain. *)
Fixpoint product_row (dfa1 dfa2 : DFA) (s1 s2 : value) (symbols : list value)
    (new_transitions : table) : outcome table :=
  match symbols with
  | [] => Return new_transitions
  | symbol :: symbols =>
      next_s1 ← lookup_transition dfa1 s1 symbol;
      next_s2 ← lookup_transition dfa2 s2 symbol;
      product_row dfa1 dfa2 s1 s2 symbols
        (alter (insert symbol (Tup next_s1 next_s2)) (Tup s1 s2) new_transitions)
  end.

(** The second loop, over the tuple-states that remain. *)
Fixpoint product_transitions (dfa1 dfa2 : DFA) (new_states : list (value * value))
    (new_transitions : table) : outcome table :=
  match new_states with
  | [] => Return new_transitions
  | (s1, s2) :: new_states =>
      new_transitions ←
        product_row dfa1 dfa2 s1 s2 (alphabet dfa1)
          (<[Tup s1 s2 := ∅]> new_transitions);
      product_transitions dfa1 dfa2 new_states new_transitions
  end.

(** The third loop. *)
Definition product_accept_states (dfa1 dfa2 : DFA)
    (new_states : list (value * value)) : list (value * value) :=
  filter (λ p, p.1 ∈ accept_states dfa1 ∧ p.2 ∈ accept_states dfa2) new_states.

Definition tuple (p : value * value) : value := Tup p.1 p.2.

Definition intersect_dfa (dfa1 dfa2 : DFA) : outcome DFA :=
  let new_states := product_states dfa1 dfa2 in
  new_transitions ← product_transitions dfa1 dfa2 new_states ∅;
  let new_accept_states := product_accept_states dfa1 dfa2 new_states in
  let new_start_state := Tup (start_state dfa1) (start_state dfa2) in
  Return (mkDFA (tuple <$> new_states) (alphabet dfa1) new_start_state
            (tuple <$> new_accept_states) new_transitions).

(** ** is_language_empty *)

(** A record of what a search did, kept beside the program's own variables:
    the states appended to [queue], the states popped from it, and the
    transition lookups [dfa.transitions[state][symbol]] that returned, each
    in the order they happened (a lookup that raises ends the run).  The
    program does not read it. *)
Record trace : Type := mkTrace {
  enqueued : list value;
  dequeued : list value;
  lookups : list (value * value)
}.

Definition log_enqueue (s : value) (t : trace) : trace :=
  mkTrace (enqueued t ++ [s]) (dequeued t) (lookups t).
Definition log_dequeue (s : value) (t : trace) : trace :=
  mkTrace (enqueued t) (dequeued t ++ [s]) (lookups t).
Definition log_lookup (s a : value) (t : trace) : trace :=
  mkTrace (enqueued t) (dequeued t) (lookups t ++ [(s, a)]).

(** The [for symbol in dfa.alphabet] loop of one iteration, over the symbols
    that remain. *)
Fixpoint explore (dfa : DFA) (current_state : value) (symbols : list value)
    (visited : gset value) (queue : list value) (t : trace)
    : outcome (gset value * list value * trace) :=
  match symbols with
  | [] => Return (visited, queue, t)
  | symbol :: symbols =>
      next_state ← lookup_transition dfa current_state symbol;
      let t := log_lookup current_state symbol t in
      if decide (next_state ∈ visited)
      then explore dfa current_state symbols visited queue t
      else explore dfa current_state symbols
             ({[next_state]} ∪ visited) (queue ++ [next_state])
             (log_enqueue next_state t)
  end.

(** Every state a lookup can return. *)
Definition targets (dfa : DFA) : gset value :=
  ⋃ ((λ row, map_img row.2) <$> map_to_list (transitions dfa)).

(** The quantity that every iteration of the [while] loop decreases. *)
Definition unexplored (dfa : DFA) (visited : gset value) (queue : list value) : nat :=
  2 * size (targets dfa ∖ visited) + length queue.

(** The [while queue] loop.  [visited] and [queue] are the program's
    variables at the loop head. *)
Equations? search (dfa : DFA) (visited : gset value) (queue : list value)
    (t : trace) : outcome (bool * trace)
  by wf (unexplored dfa visited queue) lt :=
search dfa visited nil t := Return (true, t);
search dfa visited (cons current_state queue) t
  with decide (current_state ∈ accept_states dfa) => {
  | left _ => Return (false, log_dequeue current_state t)
  | right _
      with inspect (explore dfa current_state (alphabet dfa) visited queue
                      (log_dequeue current_state t)) => {
      | @exist (Return (visited', queue', t')) Hexplore =>
          search dfa visited' queue' t'
      | @exist (Raise e) _ => Raise e
      | @exist Untyped _ => Untyped } }.
Proof.
  assert (∀ s a s', lookup_transition dfa s a = Return s' → s' ∈ targets dfa)
    as Htargets.
  { unfold lookup_transition, subscript, mbind, outcome_bind, targets.
    intros s a s'. destruct (transitions dfa !! s) as [row|] eqn:Hrow; [|done].
    destruct (row !! a) as [x|] eqn:Ha; intros [= <-].
    apply elem_of_union_list. exists (map_img row). split.
    - apply list_elem_of_fmap. exists (s, row). split; [done|].
      by apply elem_of_map_to_list.
    - apply elem_of_map_img. eauto. }
  assert (∀ symbols v q t0 v2 q2 t2,
            explore dfa current_state symbols v q t0 = Return (v2, q2, t2) →
            unexplored dfa v2 q2 ≤ unexplored dfa v q) as Hle.
  { clear Hexplore. induction symbols as [|a symbols IH]; intros v q t0 v2 q2 t2;
      simpl.
    - by intros [= -> -> ->].
    - destruct (lookup_transition dfa current_state a) as [next| |] eqn:Hnext;
        simpl; try done.
      destruct (decide (next ∈ v)) as [Hin|Hin]; [apply IH|].
      intros H. apply IH in H. etrans; [exact H|].
      apply Htargets in Hnext.
      unfold unexplored. rewrite length_app. simpl.
      assert (size (targets dfa ∖ ({[next]} ∪ v)) < size (targets dfa ∖ v));
        [|lia].
      apply subset_size. split.
      + intros x. rewrite !elem_of_difference, elem_of_union. tauto.
      + intros Hsub. specialize (Hsub next).
        rewrite !elem_of_difference, elem_of_union, elem_of_singleton in Hsub.
        tauto. }
  apply Hle in Hexplore. unfold unexplored in *. simpl. lia.
Qed.

Definition is_language_empty_trace (dfa : DFA) : outcome (bool * trace) :=
  let start := start_state dfa in
  search dfa {[start]} [start] (mkTrace [start] [] []).

Definition is_language_empty (dfa : DFA) : outcome bool :=
  fst <$> is_language_empty_trace dfa.

(** ** check_consistency *)

Definition newline : string := String (Ascii.ascii_of_nat 10) EmptyString.

(** The result is the returned boolean with the arguments of the two [print]
    calls that precede the [return]. *)
Definition check_consistency {str : Type} (json_loads : str → outcome json)
    (dfa_json_str_1 dfa_json_str_2 : str) : outcome (bool * list string) :=
  dfa1 ← parse_dfa_json json_loads dfa_json_str_1;
  dfa2 ← parse_dfa_json json_loads dfa_json_str_2;
  dfa1 ← typed dfa1;
  dfa2 ← typed dfa2;
  dfa_intersection ← intersect_dfa dfa1 dfa2;
  empty ← is_language_empty dfa_intersection;
  if empty : bool
  then Return (negb empty,
               ["False" +:+ newline; "The two input DFAs are inconsistent."])
  else Return (negb empty,
               ["True" +:+ newline; "The two input DFAs are consistent."]).

(** ** The strings of the driver *)

(** A string by what [json.loads] makes of it: the text of a document, or a
    string that is not the text of any, on which [json.loads] raises
    [json.JSONDecodeError].  The examples run the program on such strings. *)
Inductive text : Type :=
| Text (data : json)
| NoText.

Definition text_loads (s : text) : outcome json :=
  match s with
  | Text data => Return data
  | NoText => Raise JSONDecodeError
  end.

(** The documents of which the driver's four strings are the texts. *)
Definition w0_json : json := JObj {[
  "states" := JArr [JStr "qstart"; JStr "q0"; JStr "q1"];
  "alphabet" := JArr [JStr "0"; JStr "1"];
  "start_state" := JStr "qstart";
  "accept_states" := JArr [JStr "q0"];
  "transitions" := JObj {[
    "qstart" := JObj {[ "0" := JStr "q0"; "1" := JStr "q1" ]};
    "q0" := JObj {[ "0" := JStr "q0"; "1" := JStr "q0" ]};
    "q1" := JObj {[ "0" := JStr "q1"; "1" := JStr "q1" ]} ]} ]}.

Definition w1_json : json := JObj {[
  "states" := JArr [JStr "rstart"; JStr "r0"; JStr "r1"];
  "alphabet" := JArr [JStr "0"; JStr "1"];
  "start_state" := JStr "rstart";
  "accept_states" := JArr [JStr "r1"];
  "transitions" := JObj {[
    "rstart" := JObj {[ "0" := JStr "r0"; "1" := JStr "r1" ]};
    "r0" := JObj {[ "0" := JStr "r0"; "1" := JStr "r0" ]};
    "r1" := JObj {[ "0" := JStr "r1"; "1" := JStr "r1" ]} ]} ]}.

Definition x0_json : json := JObj {[
  "states" := JArr [JStr "q0"; JStr "q1"; JStr "q2"; JStr "q3"];
  "alphabet" := JArr [JStr "0"; JStr "1"];
  "start_state" := JStr "q0";
  "accept_states" := JArr [JStr "q3"];
  "transitions" := JObj {[
    "q0" := JObj {[ "0" := JStr "q1"; "1" := JStr "q2" ]};
    "q1" := JObj {[ "0" := JStr "q1"; "1" := JStr "q3" ]};
    "q2" := JObj {[ "0" := JStr "q3"; "1" := JStr "q2" ]};
    "q3" := JObj {[ "0" := JStr "q3"; "1" := JStr "q3" ]} ]} ]}.

Definition x1_json : json := JObj {[
  "states" := JArr [JStr "r0"; JStr "r1"];
  "alphabet" := JArr [JStr "0"; JStr "1"];
  "start_state" := JStr "r0";
  "accept_states" := JArr [JStr "r1"];
  "transitions" := JObj {[
    "r0" := JObj {[ "0" := JStr "r0"; "1" := JStr "r1" ]};
    "r1" := JObj {[ "0" := JStr "r1"; "1" := JStr "r1" ]} ]} ]}.

(** ** What the specification speaks of *)

(** The state a word drives a state to, by the lookups of the program. *)
Fixpoint run (dfa : DFA) (state : value) (word : list value) : outcome value :=
  match word with
  | [] => Return state
  | symbol :: word =>
      next_state ← lookup_transition dfa state symbol;
      run dfa next_state word
  end.

(** A finite sequence of alphabet symbols that drives the start state to an
    accepting state. *)
Definition accepts (dfa : DFA) (word : list value) : Prop :=
  Forall (.∈ alphabet dfa) word ∧
  match run dfa (start_state dfa) word with
  | Return s => s ∈ accept_states dfa
  | _ => False
  end.

#[global] Instance accepts_dec dfa word : Decision (accepts dfa word).
Proof.
  unfold accepts. destruct (run dfa (start_state dfa) word); apply _.
Defined.

(** The states reachable from the start state in the transition graph. *)
Inductive reachable (dfa : DFA) : value → Prop :=
| reachable_start : reachable dfa (start_state dfa)
| reachable_step s a s' :
    reachable dfa s → a ∈ alphabet dfa →
    lookup_transition dfa s a = Return s' → reachable dfa s'.

(** The lookup for [state] and [symbol] returns a member of [states]. *)
Definition closed_at (dfa : DFA) (state symbol : value) : Prop :=
  match lookup_transition dfa state symbol with
  | Return s' => s' ∈ states dfa
  | _ => False
  end.

#[global] Instance closed_at_dec dfa s a : Decision (closed_at dfa s a).
Proof. unfold closed_at. destruct (lookup_transition dfa s a); apply _. Defined.

(** The invariants of the data model: the start state and the accept states
    are states, and the transition table is total on states and alphabet,
    with results among the states. *)
Definition valid (dfa : DFA) : Prop :=
  start_state dfa ∈ states dfa ∧
  Forall (.∈ states dfa) (accept_states dfa) ∧
  Forall (λ s, Forall (closed_at dfa s) (alphabet dfa)) (states dfa).

#[global] Instance valid_dec dfa : Decision (valid dfa).
Proof. unfold valid. apply _. Defined.

(** Two DFAs over one alphabet: each symbol of one is a symbol of the
    other. *)
Definition same_alphabet (dfa1 dfa2 : DFA) : Prop :=
  Forall (.∈ alphabet dfa2) (alphabet dfa1) ∧
  Forall (.∈ alphabet dfa1) (alphabet dfa2).

#[global] Instance same_alphabet_dec dfa1 dfa2 : Decision (same_alphabet dfa1 dfa2).
Proof. unfold same_alphabet. apply _. Defined.

(** The DFA a string describes: what [parse_dfa_json] returns, read at the
    attribute types. *)
Definition decode {str : Type} (json_loads : str → outcome json)
    (descr : str) : outcome DFA :=
  parse_dfa_json json_loads descr ≫= typed.

(** *** Invariants of the two loops *)

(** What holds of [visited], [queue] and the trace at the loop head. *)
Record search_inv (dfa : DFA) (v : gset value) (q : list value) (t : trace) : Prop := {
  inv_start : start_state dfa ∈ v;
  inv_visited : ∀ s, s ∈ v ↔ s ∈ enqueued t;
  inv_nodup : NoDup (enqueued t);
  inv_queue : enqueued t = dequeued t ++ q;
  inv_reachable : ∀ s, s ∈ v → reachable dfa s;
  inv_expanded : ∀ s, s ∈ dequeued t →
    (s ∉ accept_states dfa) ∧
    (∀ a, a ∈ alphabet dfa →
          ∃ s', lookup_transition dfa s a = Return s' ∧ s' ∈ v);
  inv_lookups : length (lookups t) = length (dequeued t) * length (alphabet dfa)
}.

(** The row that the second loop leaves for a tuple-state. *)
Definition product_row_spec (dfa1 dfa2 : DFA) (s1 s2 : value) (symbols : list value)
    (old row : gmap value value) : Prop :=
  ∀ a, if decide (a ∈ symbols)
       then ∃ n1 n2, lookup_transition dfa1 s1 a = Return n1 ∧
                     lookup_transition dfa2 s2 a = Return n2 ∧
                     row !! a = Some (Tup n1 n2)
       else row !! a = old !! a.

#[global] Instance tuple_inj : Inj (=) (=) tuple.
Proof. intros [a b] [c d]. unfold tuple. simpl. by intros [= -> ->]. Qed.

(** *** Descriptions *)

(** A string describes a valid DFA. *)
Definition valid_description {str : Type} (json_loads : str → outcome json)
    (descr : str) : Prop :=
  match decode json_loads descr with
  | Return dfa => valid dfa
  | _ => False
  end.

#[global] Instance valid_description_dec {str : Type}
    (json_loads : str → outcome json) descr :
  Decision (valid_description json_loads descr).
Proof.
  unfold valid_description. destruct (decode json_loads descr); apply _.
Defined.

(** Two strings describe DFAs over one alphabet. *)
Definition shared_alphabet {str : Type} (json_loads : str → outcome json)
    (descr1 descr2 : str) : Prop :=
  match decode json_loads descr1, decode json_loads descr2 with
  | Return dfa1, Return dfa2 => same_alphabet dfa1 dfa2
  | _, _ => False
  end.

#[global] Instance shared_alphabet_dec {str : Type}
    (json_loads : str → outcome json) descr1 descr2 :
  Decision (shared_alphabet json_loads descr1 descr2).
Proof.
  unfold shared_alphabet. destruct (decode json_loads descr1); [|apply _..].
  destruct (decode json_loads descr2); apply _.
Defined.

(** The DFA a string describes accepts a word. *)
Definition description_accepts {str : Type} (json_loads : str → outcome json)
    (descr : str) (word : list value) : Prop :=
  match decode json_loads descr with
  | Return dfa => accepts dfa word
  | _ => False
  end.

#[global] Instance description_accepts_dec {str : Type}
    (json_loads : str → outcome json) descr word :
  Decision (description_accepts json_loads descr word).
Proof.
  unfold description_accepts. destruct (decode json_loads descr); apply _.
Defined.

(** The two [print] calls and the returned value, for a value of [empty]. *)
Definition verdict (empty : bool) : bool * list string :=
  if empty
  then (negb empty, ["False" +:+ newline; "The two input DFAs are inconsistent."])
  else (negb empty, ["True" +:+ newline; "The two input DFAs are consistent."]).

(** *** The DFAs and documents of the examples *)

(** The DFAs that [x0_json] and [x1_json] describe. *)
Definition x0_dfa : DFA :=
  mkDFA [Str "q0"; Str "q1"; Str "q2"; Str "q3"] [Str "0"; Str "1"] (Str "q0")
    [Str "q3"]
    {[ Str "q0" := {[ Str "0" := Str "q1"; Str "1" := Str "q2" ]};
       Str "q1" := {[ Str "0" := Str "q1"; Str "1" := Str "q3" ]};
       Str "q2" := {[ Str "0" := Str "q3"; Str "1" := Str "q2" ]};
       Str "q3" := {[ Str "0" := Str "q3"; Str "1" := Str "q3" ]} ]}.

Definition x1_dfa : DFA :=
  mkDFA [Str "r0"; Str "r1"] [Str "0"; Str "1"] (Str "r0") [Str "r1"]
    {[ Str "r0" := {[ Str "0" := Str "r0"; Str "1" := Str "r1" ]};
       Str "r1" := {[ Str "0" := Str "r1"; Str "1" := Str "r1" ]} ]}.

Ltac by_computation := apply (bool_decide_unpack _); vm_compute; exact I.

(** A DFA with no transition at all, whose start state accepts. *)
Definition bare_dfa : DFA := mkDFA [Str "q"] [Str "0"] (Str "q") [Str "q"] ∅.

(** The five keys [parse_dfa_json] reads, in the order it reads them. *)
Definition fields : list string :=
  ["states"; "alphabet"; "start_state"; "accept_states"; "transitions"].

(** The document is an object that has the five keys. *)
Definition has_fields (data : json) : Prop :=
  match data with
  | JObj o => Forall (λ k, is_Some (o !! k)) fields
  | _ => False
  end.

(** A document with the five keys, two of them of another type than the
    description format gives them. *)
Definition wrong_type_json : json := JObj {[
  "states" := JNum 3;
  "alphabet" := JArr [JStr "0"; JStr "1"];
  "start_state" := JArr [JStr "q0"];
  "accept_states" := JArr [];
  "transitions" := JObj ∅ ]}.

(** [x1_json] without its [start_state]. *)
Definition no_start_json : json := JObj {[
  "states" := JArr [JStr "r0"; JStr "r1"];
  "alphabet" := JArr [JStr "0"; JStr "1"];
  "accept_states" := JArr [JStr "r1"];
  "transitions" := JObj {[
    "r0" := JObj {[ "0" := JStr "r0"; "1" := JStr "r1" ]};
    "r1" := JObj {[ "0" := JStr "r1"; "1" := JStr "r1" ]} ]} ]}.

(** A description with the five fields, whose only state is named
    [start_state] and has no row in the transition table. *)
Definition no_row_json : json := JObj {[
  "states" := JArr [JStr "start_state"];
  "alphabet" := JArr [JStr "0"];
  "start_state" := JStr "start_state";
  "accept_states" := JArr [];
  "transitions" := JObj ∅ ]}.

#[global] Instance has_fields_dec data : Decision (has_fields data).
Proof. unfold has_fields. destruct data; apply _. Defined.

(** A DFA object whose start state [b] is not among its [states] and whose
    table has an entry for a symbol, [1], that is not in its [alphabet]. *)
Definition stray_dfa : DFA :=
  mkDFA [Str "a"] [Str "0"] (Str "b") []
    {[ Str "a" := {[ Str "0" := Str "a" ]};
       Str "b" := {[ Str "0" := Str "b"; Str "1" := Str "b" ]} ]}.

(** Scenario 4: one state, not accepting, with a loop on every symbol. *)
Definition loop_dfa : DFA :=
  mkDFA [Str "q"] [Str "0"; Str "1"] (Str "q") []
    {[ Str "q" := {[ Str "0" := Str "q"; Str "1" := Str "q" ]} ]}.

(** *** Further devices of the proofs and examples *)

(** The lookups of the iterations that expanded the states of [expanded], in
    the order of the two loops. *)
Definition expansion (dfa : DFA) (expanded : list value) : list (value * value) :=
  s ← expanded; pair s <$> alphabet dfa.

(** A DFA object with another [alphabet] attribute. *)
Definition with_alphabet (symbols : list value) (dfa : DFA) : DFA :=
  mkDFA (states dfa) symbols (start_state dfa) (accept_states dfa)
    (transitions dfa).

(** A valid DFA over the one symbol [0]. *)
Definition zero_dfa : DFA :=
  mkDFA [Str "z"] [Str "0"] (Str "z") [Str "z"]
    {[ Str "z" := {[ Str "0" := Str "z" ]} ]}.

(** A DFA object with no symbol and no transition. *)
Definition silent_dfa : DFA := mkDFA [Str "q"] [] (Str "q") [] ∅.

(** A DFA object whose start state has no row in the table. *)
Definition no_row_dfa : DFA := mkDFA [Str "q"] [Str "0"] (Str "q") [] ∅.

(** A DFA object that lists no state. *)
Definition stateless_dfa : DFA := mkDFA [] [Str "0"] (Str "q") [] ∅.

(** What [intersect_dfa] returns on [loop_dfa] twice. *)
Definition loop_product : DFA :=
  mkDFA [Tup (Str "q") (Str "q")] [Str "0"; Str "1"] (Tup (Str "q") (Str "q")) []
    {[ Tup (Str "q") (Str "q") :=
         {[ Str "0" := Tup (Str "q") (Str "q");
            Str "1" := Tup (Str "q") (Str "q") ]} ]}.

(** The object of [x1_json]. *)
Definition x1_object : gmap string json :=
  match x1_json with
  | JObj o => o
  | _ => ∅
  end.

#[global] Instance trace_eq_dec : EqDecision trace.
Proof. solve_decision. Defined.

(** The driver under [if __name__ == "__main__"], on its strings [w0_json]
    and [w1_json]. *)
Definition main : outcome (list string) :=
  '(is_consistent, printed) ←
    check_consistency text_loads (Text w0_json) (Text w1_json);
  Return (["Checking w0 and w1...." +:+ newline] ++ printed ++
          ["Consistent? " +:+ (if is_consistent : bool then "True" else "False")]).

(** * Properties *)

(** ** The search loop *)

Lemma search_eq dfa visited queue t :
  search dfa visited queue t =
  match queue with
  | [] => Return (true, t)
  | current_state :: queue =>
      if decide (current_state ∈ accept_states dfa)
      then Return (false, log_dequeue current_state t)
      else
        '(visited', queue', t') ←
          explore dfa current_state (alphabet dfa) visited queue
            (log_dequeue current_state t);
        search dfa visited' queue' t'
  end.
Proof.
  destruct queue as [|cur queue]; simp search; [done|].
  destruct (decide (cur ∈ accept_states dfa)); simpl; [done|].
  by destruct (explore dfa cur (alphabet dfa) visited queue (log_dequeue cur t))
    as [[[v' q'] t']| |].
Qed.

Lemma lookup_transition_Return dfa s a s' :
  lookup_transition dfa s a = Return s' ↔
  ∃ row, transitions dfa !! s = Some row ∧ row !! a = Some s'.
Proof.
  unfold lookup_transition, subscript, mbind, outcome_bind.
  split.
  - destruct (transitions dfa !! s) as [row|]; [|done].
    destruct (row !! a) as [x|] eqn:E; [|done]. intros [= ->]. eauto.
  - intros (row & -> & ->). done.
Qed.

Lemma lookup_transition_Raise dfa s a e :
  lookup_transition dfa s a = Raise e ↔
  (transitions dfa !! s = None ∧ e = KeyError s) ∨
  (∃ row, transitions dfa !! s = Some row ∧ row !! a = None ∧ e = KeyError a).
Proof.
  unfold lookup_transition, subscript, mbind, outcome_bind.
  destruct (transitions dfa !! s) as [row|]; [destruct (row !! a) eqn:E|];
    naive_solver.
Qed.

Lemma lookup_transition_typed dfa s a : lookup_transition dfa s a ≠ Untyped.
Proof.
  unfold lookup_transition, subscript, mbind, outcome_bind.
  destruct (transitions dfa !! s) as [row|]; [destruct (row !! a)|]; done.
Qed.

Section explore.
Context (dfa : DFA) (cur : value).

Lemma explore_typed symbols v q t : explore dfa cur symbols v q t ≠ Untyped.
Proof.
  revert v q t. induction symbols as [|a symbols IH]; intros v q t; simpl; [done|].
  pose proof (lookup_transition_typed dfa cur a).
  destruct (lookup_transition dfa cur a) as [next| |]; simpl; [|done..].
  destruct (decide (next ∈ v)); apply IH.
Qed.

Lemma explore_Raise symbols v q t e :
  explore dfa cur symbols v q t = Raise e →
  ∃ a, a ∈ symbols ∧ lookup_transition dfa cur a = Raise e.
Proof.
  revert v q t. induction symbols as [|a symbols IH]; intros v q t; simpl; [done|].
  destruct (lookup_transition dfa cur a) as [next| |] eqn:Hnext; simpl.
  - intros H. assert (∃ a', a' ∈ symbols ∧ lookup_transition dfa cur a' = Raise e)
      as (a' & ? & ?) by (destruct (decide (next ∈ v)); eauto).
    exists a'. split; [by right|done].
  - intros [= ->]. exists a. split; [by left|done].
  - done.
Qed.

Lemma explore_Return symbols v q t v' q' t' :
  explore dfa cur symbols v q t = Return (v', q', t') →
  ∃ new,
    q' = q ++ new ∧ enqueued t' = enqueued t ++ new ∧
    dequeued t' = dequeued t ∧
    length (lookups t') = length (lookups t) + length symbols ∧
    NoDup new ∧ (∀ s, s ∈ new → s ∉ v) ∧
    (∀ s, s ∈ v' ↔ s ∈ v ∨ s ∈ new) ∧
    (∀ s, s ∈ new → ∃ a, a ∈ symbols ∧ lookup_transition dfa cur a = Return s) ∧
    (∀ a, a ∈ symbols → ∃ s, lookup_transition dfa cur a = Return s ∧ s ∈ v').
Proof.
  revert v q t. induction symbols as [|a symbols IH]; intros v q t; simpl.
  - intros [= <- <- <-]. exists []. rewrite !app_nil_r.
    split_and!; try done; try (by constructor);
      try (intros s Hs; by apply elem_of_nil in Hs).
    intros s. rewrite elem_of_nil. tauto.
  - destruct (lookup_transition dfa cur a) as [next| |] eqn:Hnext; simpl; [|done..].
    destruct (decide (next ∈ v)) as [Hin|Hin]; intros H; apply IH in H;
      destruct H as (new & -> & Henq & Hdeq & Hlen & Hnd & Hfresh & Hv' & Hnew & Hall);
      simpl in *; rewrite length_app in Hlen; simpl in Hlen.
    + exists new. split_and!; try done; try lia.
      * intros s Hs. destruct (Hnew s Hs) as (a' & ? & ?).
        exists a'. split; [by right|done].
      * intros a' [->|Ha']%elem_of_cons; [|by apply Hall].
        exists next. split; [done|]. apply Hv'. by left.
    + exists (next :: new). rewrite <-!app_assoc in *. simpl in *.
      split_and!; try done; try lia.
      * constructor; [|done]. intros Hn. apply (Hfresh _ Hn). set_solver.
      * intros s [->|Hs]%elem_of_cons; [done|].
        intros Hv. apply (Hfresh _ Hs). set_solver.
      * intros s. rewrite Hv', elem_of_union, elem_of_singleton, elem_of_cons.
        tauto.
      * intros s [->|Hs]%elem_of_cons.
        -- exists a. split; [by left|done].
        -- destruct (Hnew s Hs) as (a' & ? & ?). exists a'. split; [by right|done].
      * intros a' [->|Ha']%elem_of_cons; [|by apply Hall].
        exists next. split; [done|]. apply Hv'. left. set_solver.
Qed.

Lemma explore_total symbols v q t :
  (∀ a, a ∈ symbols → ∃ s, lookup_transition dfa cur a = Return s) →
  ∃ r, explore dfa cur symbols v q t = Return r.
Proof.
  revert v q t. induction symbols as [|a symbols IH]; intros v q t Hall; simpl.
  - eauto.
  - destruct (Hall a) as [next ->]; [by left|]. simpl.
    destruct (decide (next ∈ v)); apply IH; intros a' Ha'; apply Hall; by right.
Qed.
End explore.

(** *** The loop invariant *)

Section search.
Context (dfa : DFA).

Lemma search_inv_init :
  search_inv dfa {[start_state dfa]} [start_state dfa]
    (mkTrace [start_state dfa] [] []).
Proof.
  split; simpl; try done.
  - by apply elem_of_singleton.
  - intros s. by rewrite elem_of_singleton, list_elem_of_singleton.
  - apply NoDup_singleton.
  - intros s ->%elem_of_singleton. constructor.
  - intros s Hs. by apply elem_of_nil in Hs.
Qed.

Lemma search_inv_step v cur q t v' q' t' :
  search_inv dfa v (cur :: q) t →
  cur ∉ accept_states dfa →
  explore dfa cur (alphabet dfa) v q (log_dequeue cur t) = Return (v', q', t') →
  search_inv dfa v' q' t'.
Proof.
  intros [Hstart Hvis Hnd Hq Hreach Hexp Hlook] Hacc Hexplore.
  apply explore_Return in Hexplore
    as (new & -> & Henq & Hdeq & Hlen & Hndnew & Hfresh & Hv' & Hnew & Hall).
  simpl in *.
  assert (cur ∈ v) as Hcur.
  { apply Hvis. rewrite Hq. apply elem_of_app. right. by left. }
  split.
  - apply Hv'. by left.
  - intros s. rewrite Hv', Henq, elem_of_app, Hvis. done.
  - rewrite Henq. apply NoDup_app. split_and!; [done| |done].
    intros s Hs Hs'. apply (Hfresh _ Hs'). by apply Hvis.
  - rewrite Henq, Hdeq, Hq, <-!app_assoc. done.
  - intros s [Hs|Hs]%Hv'; [by apply Hreach|].
    destruct (Hnew s Hs) as (a & Ha & Hlookup).
    eapply reachable_step; [apply Hreach, Hcur|done..].
  - intros s. rewrite Hdeq. intros [Hs| ->%list_elem_of_singleton]%elem_of_app.
    + destruct (Hexp s Hs) as [? Hsucc]. split; [done|].
      intros a Ha. destruct (Hsucc a Ha) as (s' & ? & ?).
      exists s'. split; [done|]. apply Hv'. by left.
    + split; [done|]. apply Hall.
  - rewrite Hlen, Hdeq, length_app. simpl. lia.
Qed.

(** Induction on the iterations of the loop, from a state that satisfies
    the invariant. *)
Lemma search_inv_ind (Q : outcome (bool * trace) → Prop) :
  (∀ v t, search_inv dfa v [] t → Q (Return (true, t))) →
  (∀ v cur q t,
     search_inv dfa v (cur :: q) t → cur ∈ accept_states dfa →
     Q (Return (false, log_dequeue cur t))) →
  (∀ v cur q t e,
     search_inv dfa v (cur :: q) t → cur ∉ accept_states dfa →
     explore dfa cur (alphabet dfa) v q (log_dequeue cur t) = Raise e →
     Q (Raise e)) →
  ∀ v q t, search_inv dfa v q t → Q (search dfa v q t).
Proof.
  intros Hnil Haccept Hraise v q t.
  funelim (search dfa v q t); intros Hinv.
  - by eapply Hnil.
  - by eapply Haccept.
  - match goal with
    | IH : ∀ Q : _ → Prop, _ |- _ =>
        apply IH; [done..|by eapply search_inv_step]
    end.
  - by eapply Hraise.
  - exfalso. by eapply explore_typed.
Qed.

(** When the queue is empty every reachable state has been visited. *)
Lemma search_inv_exhausted v t s :
  search_inv dfa v [] t → reachable dfa s → s ∈ dequeued t.
Proof.
  intros [Hstart Hvis Hnd Hq Hreach Hexp Hlook]. rewrite app_nil_r in Hq.
  induction 1 as [|s a s' _ IH Ha Hlookup].
  - rewrite <-Hq. by apply Hvis.
  - destruct (Hexp s IH) as [_ Hsucc]. destruct (Hsucc a Ha) as (s'' & Hs'' & Hin).
    rewrite Hlookup in Hs''. injection Hs'' as <-. rewrite <-Hq. by apply Hvis.
Qed.
End search.

(** ** Words, reachability and validity *)

Lemma run_app dfa s w1 w2 :
  run dfa s (w1 ++ w2) = run dfa s w1 ≫= λ s', run dfa s' w2.
Proof.
  revert s. induction w1 as [|a w1 IH]; intros s; simpl; [done|].
  destruct (lookup_transition dfa s a); simpl; [apply IH|done..].
Qed.

Lemma run_reachable dfa s w s' :
  Forall (.∈ alphabet dfa) w → reachable dfa s →
  run dfa s w = Return s' → reachable dfa s'.
Proof.
  intros Hw. revert s. induction Hw as [|a w Ha _ IH]; intros s Hs; simpl.
  - by intros [= <-].
  - destruct (lookup_transition dfa s a) as [next| |] eqn:Hnext; simpl; [|done..].
    apply IH. by eapply reachable_step.
Qed.

Lemma reachable_run dfa s :
  reachable dfa s →
  ∃ w, Forall (.∈ alphabet dfa) w ∧ run dfa (start_state dfa) w = Return s.
Proof.
  induction 1 as [|s a s' _ (w & Hw & Hrun) Ha Hlookup].
  - by exists [].
  - exists (w ++ [a]). split.
    + apply Forall_app. split; [done|]. by apply Forall_singleton.
    + rewrite run_app, Hrun. simpl. by rewrite Hlookup.
Qed.

Lemma accepts_reachable dfa :
  (∃ w, accepts dfa w) ↔ ∃ s, reachable dfa s ∧ s ∈ accept_states dfa.
Proof.
  unfold accepts. split.
  - intros (w & Hw & Hrun).
    destruct (run dfa (start_state dfa) w) as [s| |] eqn:E; [|done..].
    exists s. split; [|done]. eapply run_reachable; [done|constructor|done].
  - intros (s & (w & Hw & Hrun)%reachable_run & Hs). exists w.
    by rewrite Hrun.
Qed.

Lemma same_alphabet_elem dfa1 dfa2 a :
  same_alphabet dfa1 dfa2 → a ∈ alphabet dfa1 ↔ a ∈ alphabet dfa2.
Proof.
  intros [H1 H2]. rewrite Forall_forall in H1. rewrite Forall_forall in H2.
  split; auto.
Qed.

Lemma same_alphabet_sym dfa1 dfa2 :
  same_alphabet dfa1 dfa2 → same_alphabet dfa2 dfa1.
Proof. intros [? ?]. by split. Qed.

Lemma valid_lookup dfa s a :
  valid dfa → s ∈ states dfa → a ∈ alphabet dfa →
  ∃ s', lookup_transition dfa s a = Return s' ∧ s' ∈ states dfa.
Proof.
  intros (_ & _ & Htotal) Hs Ha.
  rewrite Forall_forall in Htotal. specialize (Htotal s Hs).
  rewrite Forall_forall in Htotal. specialize (Htotal a Ha).
  unfold closed_at in Htotal.
  destruct (lookup_transition dfa s a) as [s'| |]; [eauto|done..].
Qed.

Lemma valid_reachable dfa s : valid dfa → reachable dfa s → s ∈ states dfa.
Proof.
  intros Hvalid. induction 1 as [|s a s' _ IH Ha Hlookup].
  - apply Hvalid.
  - destruct (valid_lookup dfa s a) as (s'' & Hs'' & ?); [done..|].
    rewrite Hlookup in Hs''. by injection Hs'' as <-.
Qed.

(** ** Results of is_language_empty *)

Lemma is_language_empty_trace_sound dfa b t :
  is_language_empty_trace dfa = Return (b, t) →
  if b then ∀ s, reachable dfa s → s ∉ accept_states dfa
  else ∃ s, reachable dfa s ∧ s ∈ accept_states dfa.
Proof.
  unfold is_language_empty_trace.
  generalize (search_inv_init dfa).
  generalize ({[start_state dfa]} : gset value) [start_state dfa]
    (mkTrace [start_state dfa] [] []).
  intros v q t0 Hinv. revert b t.
  apply (search_inv_ind dfa
    (λ r, ∀ b t, r = Return (b, t) →
       if b then ∀ s, reachable dfa s → s ∉ accept_states dfa
       else ∃ s, reachable dfa s ∧ s ∈ accept_states dfa)); [| | |done].
  - intros v' t' Hinv' b t [= <- <-] s Hs.
    apply (search_inv_exhausted dfa v' t' s Hinv') in Hs.
    by apply (inv_expanded dfa _ _ _ Hinv').
  - intros v' cur q' t' Hinv' Hacc b t [= <- <-].
    exists cur. split; [|done]. apply (inv_reachable dfa _ _ _ Hinv').
    apply (inv_visited dfa _ _ _ Hinv'). rewrite (inv_queue dfa _ _ _ Hinv').
    apply elem_of_app. right. by left.
  - done.
Qed.

Lemma is_language_empty_trace_Raise dfa e :
  is_language_empty_trace dfa = Raise e →
  ∃ s a, reachable dfa s ∧ (s ∉ accept_states dfa) ∧ a ∈ alphabet dfa ∧
         lookup_transition dfa s a = Raise e.
Proof.
  unfold is_language_empty_trace.
  apply (search_inv_ind dfa
    (λ r, r = Raise e →
       ∃ s a, reachable dfa s ∧ (s ∉ accept_states dfa) ∧ a ∈ alphabet dfa ∧
              lookup_transition dfa s a = Raise e));
    [done|done| |apply search_inv_init].
  intros v cur q t e' Hinv Hacc Hexplore [= ->].
  apply explore_Raise in Hexplore as (a & Ha & Hlookup).
  exists cur, a. split_and!; try done.
  apply (inv_reachable dfa _ _ _ Hinv), (inv_visited dfa _ _ _ Hinv).
  rewrite (inv_queue dfa _ _ _ Hinv). apply elem_of_app. right. by left.
Qed.

Lemma is_language_empty_trace_typed dfa : is_language_empty_trace dfa ≠ Untyped.
Proof.
  unfold is_language_empty_trace.
  apply (search_inv_ind dfa (λ r, r ≠ Untyped)); [done..|apply search_inv_init].
Qed.

(** The accounts of a search that returned. *)
Lemma is_language_empty_trace_accounts dfa b t :
  is_language_empty_trace dfa = Return (b, t) →
  NoDup (enqueued t) ∧
  (∃ q, enqueued t = dequeued t ++ q) ∧
  (∀ s, s ∈ enqueued t → reachable dfa s) ∧
  length (lookups t) ≤ length (dequeued t) * length (alphabet dfa).
Proof.
  unfold is_language_empty_trace. revert b t.
  apply (search_inv_ind dfa
    (λ r, ∀ b t, r = Return (b, t) →
       NoDup (enqueued t) ∧ (∃ q, enqueued t = dequeued t ++ q) ∧
       (∀ s, s ∈ enqueued t → reachable dfa s) ∧
       length (lookups t) ≤ length (dequeued t) * length (alphabet dfa)));
    [| |done|apply search_inv_init].
  - intros v t' [Hstart Hvis Hnd Hq Hreach Hexp Hlook] b t [= <- <-].
    split_and!; [done|by exists []| |lia].
    intros s Hs. by apply Hreach, Hvis.
  - intros v cur q t' [Hstart Hvis Hnd Hq Hreach Hexp Hlook] Hacc b t [= <- <-].
    simpl. split_and!; [done| | |].
    + exists q. by rewrite Hq, <-app_assoc.
    + intros s Hs. by apply Hreach, Hvis.
    + rewrite Hlook, length_app. simpl. lia.
Qed.

Lemma is_language_empty_trace_valid dfa :
  valid dfa → ∃ b t, is_language_empty_trace dfa = Return (b, t).
Proof.
  intros Hvalid.
  destruct (is_language_empty_trace dfa) as [[b t]|e|] eqn:H; [eauto| |].
  - apply is_language_empty_trace_Raise in H as (s & a & Hs & _ & Ha & Hlookup).
    destruct (valid_lookup dfa s a) as (s' & Hs' & _);
      [done|by apply valid_reachable|done|congruence].
  - by apply is_language_empty_trace_typed in H.
Qed.

(** ** The product construction *)

Section product.
Context (dfa1 dfa2 : DFA).

Lemma elem_of_product_states s1 s2 :
  (s1, s2) ∈ product_states dfa1 dfa2 ↔ s1 ∈ states dfa1 ∧ s2 ∈ states dfa2.
Proof.
  unfold product_states. rewrite list_elem_of_bind. split.
  - intros (x & (y & Hy%list_elem_of_singleton & ?)%list_elem_of_bind & ?).
    by injection Hy as -> ->.
  - intros [? ?]. exists s1. split; [|done].
    apply list_elem_of_bind. exists s2. split; [|done]. by left.
Qed.

Lemma length_product_states :
  length (product_states dfa1 dfa2) = length (states dfa1) * length (states dfa2).
Proof.
  unfold product_states. induction (states dfa1) as [|s1 l IH]; [done|].
  rewrite bind_cons, length_app, IH. simpl.
  assert (length (states dfa2 ≫= λ s2, [(s1, s2)]) = length (states dfa2))
    as ->; [|done].
  clear IH. generalize (states dfa2). intros l2.
  induction l2 as [|s2 l2 IH2]; [reflexivity|].
  rewrite bind_cons. simpl. by rewrite IH2.
Qed.

Lemma NoDup_product_states :
  NoDup (states dfa1) → NoDup (states dfa2) → NoDup (product_states dfa1 dfa2).
Proof.
  intros H1 H2. unfold product_states.
  apply NoDup_bind; [| |done].
  - intros x1 x2 [y1 y2] _ _.
    intros (? & [= <- <-]%list_elem_of_singleton & _)%list_elem_of_bind.
    by intros (? & [= <- <-]%list_elem_of_singleton & _)%list_elem_of_bind.
  - intros x _. apply NoDup_bind; [| |done].
    + intros y1 y2 z _ _ ->%list_elem_of_singleton.
      by intros [= ->]%list_elem_of_singleton.
    + intros y _. apply NoDup_singleton.
Qed.

Lemma product_row_Return s1 s2 symbols nt nt' old :
  nt !! Tup s1 s2 = Some old →
  product_row dfa1 dfa2 s1 s2 symbols nt = Return nt' →
  ∃ row, nt' = <[Tup s1 s2 := row]> nt ∧ product_row_spec dfa1 dfa2 s1 s2 symbols old row.
Proof.
  revert nt old. induction symbols as [|a symbols IH]; intros nt old Hold; simpl.
  - intros [= <-]. exists old. split; [by rewrite insert_id|].
    intros a. destruct (decide (a ∈ [])) as [[]%elem_of_nil|]; done.
  - destruct (lookup_transition dfa1 s1 a) as [n1| |] eqn:H1; simpl; [|done..].
    destruct (lookup_transition dfa2 s2 a) as [n2| |] eqn:H2; simpl; [|done..].
    intros H. eapply IH in H as (row & -> & Hrow).
    2:{ rewrite lookup_alter_eq, Hold. done. }
    exists row. split.
    + apply map_eq. intros k. destruct (decide (k = Tup s1 s2)) as [->|].
      * by rewrite !lookup_insert_eq.
      * by rewrite !lookup_insert_ne, lookup_alter_ne.
    + intros a'. specialize (Hrow a').
      destruct (decide (a' ∈ symbols)) as [Hin|Hin].
      * rewrite decide_True by (by right). done.
      * destruct (decide (a' = a)) as [->|Hne].
        -- rewrite decide_True by (by left).
           exists n1, n2. by rewrite Hrow, lookup_insert_eq.
        -- rewrite decide_False by (by intros [?|?]%elem_of_cons).
           by rewrite Hrow, lookup_insert_ne.
Qed.

Lemma product_row_Raise s1 s2 symbols nt e :
  product_row dfa1 dfa2 s1 s2 symbols nt = Raise e →
  ∃ a, a ∈ symbols ∧
       (lookup_transition dfa1 s1 a = Raise e ∨
        lookup_transition dfa2 s2 a = Raise e).
Proof.
  revert nt. induction symbols as [|a symbols IH]; intros nt; simpl; [done|].
  destruct (lookup_transition dfa1 s1 a) as [n1| |] eqn:H1; simpl.
  - destruct (lookup_transition dfa2 s2 a) as [n2| |] eqn:H2; simpl.
    + intros (a' & ? & ?)%IH. exists a'. split; [by right|done].
    + intros [= ->]. exists a. split; [by left|by right].
    + done.
  - intros [= ->]. exists a. split; [by left|by left].
  - done.
Qed.

Lemma product_row_typed s1 s2 symbols nt :
  product_row dfa1 dfa2 s1 s2 symbols nt ≠ Untyped.
Proof.
  revert nt. induction symbols as [|a symbols IH]; intros nt; simpl; [done|].
  pose proof (lookup_transition_typed dfa1 s1 a).
  pose proof (lookup_transition_typed dfa2 s2 a).
  destruct (lookup_transition dfa1 s1 a); simpl; [|done..].
  destruct (lookup_transition dfa2 s2 a); simpl; [|done..].
  apply IH.
Qed.

Lemma product_row_fails s1 s2 symbols nt a :
  a ∈ symbols →
  (∃ e, lookup_transition dfa1 s1 a = Raise e) ∨
  (∃ e, lookup_transition dfa2 s2 a = Raise e) →
  ∃ e, product_row dfa1 dfa2 s1 s2 symbols nt = Raise e.
Proof.
  intros Ha Hfail. destruct (product_row dfa1 dfa2 s1 s2 symbols nt)
    as [nt'|e|] eqn:H; [|eauto|by apply product_row_typed in H].
  exfalso. revert nt H.
  induction symbols as [|a' symbols IH]; intros nt; simpl;
    [by apply elem_of_nil in Ha|].
  destruct (lookup_transition dfa1 s1 a') as [n1| |] eqn:H1; simpl; [|done..].
  destruct (lookup_transition dfa2 s2 a') as [n2| |] eqn:H2; simpl; [|done..].
  apply elem_of_cons in Ha as [->|Ha]; [|by apply IH].
  destruct Hfail as [[e He]|[e He]]; congruence.
Qed.

Lemma product_transitions_Return new_states nt nt' :
  product_transitions dfa1 dfa2 new_states nt = Return nt' →
  (∀ s1 s2, (s1, s2) ∈ new_states →
     ∃ row, nt' !! Tup s1 s2 = Some row ∧
            product_row_spec dfa1 dfa2 s1 s2 (alphabet dfa1) ∅ row) ∧
  (∀ k, (∀ s1 s2, (s1, s2) ∈ new_states → k ≠ Tup s1 s2) → nt' !! k = nt !! k).
Proof.
  revert nt. induction new_states as [|[s1 s2] new_states IH]; intros nt; simpl.
  - intros [= <-]. split; [|done]. by intros s1 s2 ?%elem_of_nil.
  - destruct (product_row dfa1 dfa2 s1 s2 (alphabet dfa1) (<[Tup s1 s2:=∅]> nt))
      as [nt1| |] eqn:Hrow; simpl; [|done..].
    eapply product_row_Return in Hrow as (row & -> & Hrow);
      [|apply lookup_insert_eq].
    intros [Hin Hout]%IH. split.
    + intros s1' s2' Hmem.
      destruct (decide ((s1', s2') ∈ new_states)) as [?|Hnotin]; [by apply Hin|].
      apply elem_of_cons in Hmem as [[= -> ->]|?]; [|done].
      exists row. split; [|done]. rewrite Hout, lookup_insert_eq; [done|].
      intros s1' s2' ? [= -> ->]. done.
    + intros k Hk. rewrite Hout.
      * rewrite !lookup_insert_ne; [done|..]; intros <-;
          by apply (Hk s1 s2); [left|].
      * intros s1' s2' ?. apply Hk. by right.
Qed.

Lemma product_transitions_Raise new_states nt e :
  product_transitions dfa1 dfa2 new_states nt = Raise e →
  ∃ s1 s2 a, (s1, s2) ∈ new_states ∧ a ∈ alphabet dfa1 ∧
    (lookup_transition dfa1 s1 a = Raise e ∨
     lookup_transition dfa2 s2 a = Raise e).
Proof.
  revert nt. induction new_states as [|[s1 s2] new_states IH]; intros nt; simpl;
    [done|].
  destruct (product_row dfa1 dfa2 s1 s2 (alphabet dfa1) (<[Tup s1 s2:=∅]> nt))
    as [nt1|e'|] eqn:Hrow; simpl.
  - intros (s1' & s2' & a & ? & ?)%IH. exists s1', s2', a. split; [by right|done].
  - intros [= ->]. apply product_row_Raise in Hrow as (a & ? & ?).
    exists s1, s2, a. split; [by left|done].
  - done.
Qed.

Lemma product_transitions_typed new_states nt :
  product_transitions dfa1 dfa2 new_states nt ≠ Untyped.
Proof.
  revert nt. induction new_states as [|[s1 s2] new_states IH]; intros nt; simpl;
    [done|].
  pose proof (product_row_typed s1 s2 (alphabet dfa1) (<[Tup s1 s2:=∅]> nt)).
  destruct (product_row dfa1 dfa2 s1 s2 (alphabet dfa1) (<[Tup s1 s2:=∅]> nt));
    simpl; [apply IH|done..].
Qed.

Lemma product_transitions_fails new_states nt s1 s2 a :
  (s1, s2) ∈ new_states → a ∈ alphabet dfa1 →
  (∃ e, lookup_transition dfa1 s1 a = Raise e) ∨
  (∃ e, lookup_transition dfa2 s2 a = Raise e) →
  ∃ e, product_transitions dfa1 dfa2 new_states nt = Raise e.
Proof.
  intros Hmem Ha Hfail. revert nt.
  induction new_states as [|[s1' s2'] new_states IH]; intros nt; simpl;
    [by apply elem_of_nil in Hmem|].
  destruct (product_row dfa1 dfa2 s1' s2' (alphabet dfa1) (<[Tup s1' s2':=∅]> nt))
    as [nt1|e'|] eqn:Hrow; simpl; [|eauto|by apply product_row_typed in Hrow].
  apply elem_of_cons in Hmem as [[= <- <-]|Hmem]; [|by apply IH].
  destruct (product_row_fails s1 s2 (alphabet dfa1) (<[Tup s1 s2:=∅]> nt) a)
    as [e He]; [done..|congruence].
Qed.

Lemma elem_of_product_accept_states s1 s2 :
  (s1, s2) ∈ product_accept_states dfa1 dfa2 (product_states dfa1 dfa2) ↔
  (s1 ∈ states dfa1 ∧ s2 ∈ states dfa2) ∧
  s1 ∈ accept_states dfa1 ∧ s2 ∈ accept_states dfa2.
Proof.
  unfold product_accept_states.
  rewrite list_elem_of_filter, elem_of_product_states. simpl. tauto.
Qed.
End product.

Lemma elem_of_tuple_fmap s1 s2 (l : list (value * value)) :
  Tup s1 s2 ∈ tuple <$> l ↔ (s1, s2) ∈ l.
Proof.
  rewrite list_elem_of_fmap. split.
  - intros ([a b] & [= -> ->] & ?). done.
  - intros ?. by exists (s1, s2).
Qed.

(** ** The DFA that intersect_dfa returns *)

Section intersection.
Context (dfa1 dfa2 product : DFA).
Context (Hproduct : intersect_dfa dfa1 dfa2 = Return product).

Lemma intersect_dfa_fields :
  product_transitions dfa1 dfa2 (product_states dfa1 dfa2) ∅
    = Return (transitions product) ∧
  states product = tuple <$> product_states dfa1 dfa2 ∧
  alphabet product = alphabet dfa1 ∧
  start_state product = Tup (start_state dfa1) (start_state dfa2) ∧
  accept_states product
    = tuple <$> product_accept_states dfa1 dfa2 (product_states dfa1 dfa2).
Proof using Hproduct.
  unfold intersect_dfa in Hproduct.
  destruct (product_transitions dfa1 dfa2 (product_states dfa1 dfa2) ∅)
    as [nt| |]; simpl in Hproduct; [|done..].
  by injection Hproduct as <-.
Qed.

Lemma elem_of_intersect_states s :
  s ∈ states product ↔
  ∃ s1 s2, s = Tup s1 s2 ∧ s1 ∈ states dfa1 ∧ s2 ∈ states dfa2.
Proof using Hproduct.
  destruct intersect_dfa_fields as (_ & -> & _).
  rewrite list_elem_of_fmap. split.
  - intros ([s1 s2] & -> & ?%elem_of_product_states). by exists s1, s2.
  - intros (s1 & s2 & -> & ?). exists (s1, s2).
    by rewrite elem_of_product_states.
Qed.

Lemma elem_of_intersect_accept_states s1 s2 :
  Tup s1 s2 ∈ accept_states product ↔
  (s1 ∈ states dfa1 ∧ s2 ∈ states dfa2) ∧
  s1 ∈ accept_states dfa1 ∧ s2 ∈ accept_states dfa2.
Proof using Hproduct.
  destruct intersect_dfa_fields as (_ & _ & _ & _ & ->).
  by rewrite elem_of_tuple_fmap, elem_of_product_accept_states.
Qed.

Lemma intersect_dfa_lookup s1 s2 a :
  s1 ∈ states dfa1 → s2 ∈ states dfa2 → a ∈ alphabet dfa1 →
  ∃ n1 n2, lookup_transition dfa1 s1 a = Return n1 ∧
           lookup_transition dfa2 s2 a = Return n2 ∧
           lookup_transition product (Tup s1 s2) a = Return (Tup n1 n2).
Proof using Hproduct.
  intros H1 H2 Ha. destruct intersect_dfa_fields as (Htable & _).
  apply product_transitions_Return in Htable as [Hrows _].
  destruct (Hrows s1 s2) as (row & Hrow & Hspec);
    [by apply elem_of_product_states|].
  specialize (Hspec a). rewrite decide_True in Hspec by done.
  destruct Hspec as (n1 & n2 & ? & ? & ?). exists n1, n2. split_and!; [done..|].
  apply lookup_transition_Return. eauto.
Qed.

Lemma intersect_dfa_valid :
  valid dfa1 → valid dfa2 → same_alphabet dfa1 dfa2 → valid product.
Proof using Hproduct.
  intros Hv1 Hv2 Hsame. split_and!.
  - apply elem_of_intersect_states.
    exists (start_state dfa1), (start_state dfa2).
    split_and!; [apply intersect_dfa_fields|apply Hv1|apply Hv2].
  - apply Forall_forall. intros s Hs.
    destruct intersect_dfa_fields as (_ & _ & _ & _ & Hacc).
    rewrite Hacc in Hs. apply list_elem_of_fmap in Hs as ([s1 s2] & -> & Hs).
    apply elem_of_product_accept_states in Hs as [[? ?] _].
    apply elem_of_intersect_states. by exists s1, s2.
  - apply Forall_forall. intros s (s1 & s2 & -> & H1 & H2)%elem_of_intersect_states.
    apply Forall_forall. intros a Ha.
    assert (a ∈ alphabet dfa1) as Ha1.
    { by destruct intersect_dfa_fields as (_ & _ & <- & _). }
    destruct (intersect_dfa_lookup s1 s2 a) as (n1 & n2 & Hn1 & Hn2 & Hn);
      [done..|].
    unfold closed_at. rewrite Hn. apply elem_of_intersect_states.
    exists n1, n2. split; [done|].
    destruct (valid_lookup dfa1 s1 a) as (? & ? & ?); [done..|].
    destruct (valid_lookup dfa2 s2 a) as (? & ? & ?);
      [done|done|by apply (same_alphabet_elem dfa1 dfa2)|].
    split; congruence.
Qed.

(** A word drives the tuple-state to the tuple of the states it drives the
    components to. *)
Lemma intersect_dfa_run w s1 s2 :
  valid dfa1 → valid dfa2 → same_alphabet dfa1 dfa2 →
  Forall (.∈ alphabet dfa1) w → s1 ∈ states dfa1 → s2 ∈ states dfa2 →
  ∃ n1 n2, run dfa1 s1 w = Return n1 ∧ run dfa2 s2 w = Return n2 ∧
           run product (Tup s1 s2) w = Return (Tup n1 n2) ∧
           n1 ∈ states dfa1 ∧ n2 ∈ states dfa2.
Proof using Hproduct.
  intros Hv1 Hv2 Hsame Hw. revert s1 s2.
  induction Hw as [|a w Ha _ IH]; intros s1 s2 H1 H2; simpl.
  - by exists s1, s2.
  - destruct (intersect_dfa_lookup s1 s2 a) as (n1 & n2 & Hn1 & Hn2 & Hn);
      [done..|].
    rewrite Hn1, Hn2, Hn. simpl. apply IH.
    + destruct (valid_lookup dfa1 s1 a) as (? & ? & ?); [done..|]. congruence.
    + destruct (valid_lookup dfa2 s2 a) as (? & ? & ?);
        [done|done|by apply (same_alphabet_elem dfa1 dfa2)|]. congruence.
Qed.

(** The product accepts the words that both operands accept. *)
Lemma intersect_dfa_accepts w :
  valid dfa1 → valid dfa2 → same_alphabet dfa1 dfa2 →
  accepts product w ↔ accepts dfa1 w ∧ accepts dfa2 w.
Proof using Hproduct.
  intros Hv1 Hv2 Hsame. unfold accepts.
  destruct intersect_dfa_fields as (_ & _ & Halpha & Hstart & _).
  rewrite Halpha, Hstart.
  assert (Forall (.∈ alphabet dfa1) w ↔ Forall (.∈ alphabet dfa2) w) as Hw.
  { rewrite !Forall_forall. split; intros H a Ha;
      apply (same_alphabet_elem dfa1 dfa2); auto. }
  destruct (decide (Forall (.∈ alphabet dfa1) w)) as [Hw1|]; [|tauto].
  destruct (intersect_dfa_run w (start_state dfa1) (start_state dfa2))
    as (n1 & n2 & -> & -> & -> & Hn1 & Hn2); [done..|apply Hv1|apply Hv2|].
  rewrite elem_of_intersect_accept_states. tauto.
Qed.
End intersection.

(** [intersect_dfa] returns when every lookup of its second loop does. *)
Lemma intersect_dfa_total dfa1 dfa2 :
  valid dfa1 → valid dfa2 → same_alphabet dfa1 dfa2 →
  ∃ product, intersect_dfa dfa1 dfa2 = Return product.
Proof.
  intros Hv1 Hv2 Hsame. unfold intersect_dfa.
  destruct (product_transitions dfa1 dfa2 (product_states dfa1 dfa2) ∅)
    as [nt|e|] eqn:H; simpl; [eauto| |by apply product_transitions_typed in H].
  apply product_transitions_Raise in H
    as (s1 & s2 & a & [H1 H2]%elem_of_product_states & Ha & Hfail).
  destruct (valid_lookup dfa1 s1 a) as (? & ? & _); [done..|].
  destruct (valid_lookup dfa2 s2 a) as (? & ? & _);
    [done|done|by apply (same_alphabet_elem dfa1 dfa2)|].
  destruct Hfail; congruence.
Qed.

(** ** check_consistency on valid descriptions *)

Lemma check_consistency_decoded {str : Type} (json_loads : str → outcome json)
    descr1 descr2 dfa1 dfa2 :
  decode json_loads descr1 = Return dfa1 →
  decode json_loads descr2 = Return dfa2 →
  check_consistency json_loads descr1 descr2 =
  (product ← intersect_dfa dfa1 dfa2;
   empty ← is_language_empty product;
   Return (verdict empty)).
Proof.
  unfold decode, check_consistency. intros H1 H2.
  destruct (parse_dfa_json json_loads descr1) as [raw1| |]; simpl in *;
    [|done..].
  destruct (parse_dfa_json json_loads descr2) as [raw2| |]; simpl in *;
    [|done..].
  rewrite H1, H2. simpl.
  destruct (intersect_dfa dfa1 dfa2) as [p| |]; simpl; [|done..].
  destruct (is_language_empty p) as [[]| |]; done.
Qed.

Lemma is_language_empty_Return dfa b :
  is_language_empty dfa = Return b ↔ ∃ t, is_language_empty_trace dfa = Return (b, t).
Proof.
  unfold is_language_empty.
  destruct (is_language_empty_trace dfa) as [[b' t]| |]; simpl.
  - split; [intros [= ->]; eauto|intros (t' & [= -> _]); done].
  - split; [done|by intros [? ?]].
  - split; [done|by intros [? ?]].
Qed.

Lemma is_language_empty_valid dfa :
  valid dfa →
  ∃ b, is_language_empty dfa = Return b ∧
       (b = false ↔ ∃ w, accepts dfa w).
Proof.
  intros Hvalid.
  destruct (is_language_empty_trace_valid dfa Hvalid) as (b & t & Hrun).
  exists b. split; [apply is_language_empty_Return; eauto|].
  apply is_language_empty_trace_sound in Hrun. rewrite accepts_reachable.
  destruct b; [|done]. split; [done|]. intros (s & Hs & Hacc). by apply Hrun in Hs.
Qed.

Lemma valid_description_decode {str : Type} (json_loads : str → outcome json)
    descr :
  valid_description json_loads descr →
  ∃ dfa, decode json_loads descr = Return dfa ∧ valid dfa.
Proof.
  unfold valid_description.
  destruct (decode json_loads descr) as [dfa| |]; [eauto|done..].
Qed.

(** What [check_consistency] returns on two valid descriptions over one
    alphabet: whether some word is accepted by both. *)
Lemma check_consistency_valid {str : Type} (json_loads : str → outcome json)
    descr1 descr2 dfa1 dfa2 :
  decode json_loads descr1 = Return dfa1 →
  decode json_loads descr2 = Return dfa2 →
  valid dfa1 → valid dfa2 → same_alphabet dfa1 dfa2 →
  ∃ b, check_consistency json_loads descr1 descr2
       = Return (verdict (negb b)) ∧
       (b = true ↔ ∃ w, accepts dfa1 w ∧ accepts dfa2 w).
Proof.
  intros H1 H2 Hv1 Hv2 Hsame.
  rewrite (check_consistency_decoded _ _ _ _ _ H1 H2).
  destruct (intersect_dfa_total dfa1 dfa2) as [p Hp]; [done..|].
  rewrite Hp. simpl.
  destruct (is_language_empty_valid p) as (e & -> & He);
    [by eapply intersect_dfa_valid|].
  simpl. exists (negb e). rewrite negb_involutive. split; [done|].
  rewrite negb_true_iff, He.
  split; intros [w Hw]; exists w; by eapply intersect_dfa_accepts.
Qed.

(** ** The properties of the specification *)

(** C1.  On two valid descriptions over a shared alphabet,
    [check_consistency] returns the negation of [is_language_empty] applied
    to the product of the two decoded DFAs, and that is [true] exactly when
    the product accepts some word; the product is the DFA that
    [intersect_dfa] returns, which accepts exactly the words that both
    decoded DFAs accept. *)
Theorem check_consistency_product {str : Type} (json_loads : str → outcome json)
    descr1 descr2 :
  valid_description json_loads descr1 → valid_description json_loads descr2 →
  shared_alphabet json_loads descr1 descr2 →
  ∃ dfa1 dfa2 product empty,
    decode json_loads descr1 = Return dfa1 ∧
    decode json_loads descr2 = Return dfa2 ∧
    intersect_dfa dfa1 dfa2 = Return product ∧
    is_language_empty product = Return empty ∧
    fst <$> check_consistency json_loads descr1 descr2 = Return (negb empty) ∧
    (negb empty = true ↔ ∃ w, accepts product w) ∧
    (∀ w, accepts product w ↔ accepts dfa1 w ∧ accepts dfa2 w).
Proof.
  intros (dfa1 & H1 & Hv1)%valid_description_decode
         (dfa2 & H2 & Hv2)%valid_description_decode Hsame.
  unfold shared_alphabet in Hsame. rewrite H1, H2 in Hsame.
  destruct (intersect_dfa_total dfa1 dfa2) as [p Hp]; [done..|].
  destruct (is_language_empty_valid p) as (e & He & Hiff);
    [by eapply intersect_dfa_valid|].
  exists dfa1, dfa2, p, e. split_and!; try done.
  - rewrite (check_consistency_decoded _ _ _ _ _ H1 H2), Hp. simpl.
    rewrite He. simpl. by destruct e.
  - by rewrite negb_true_iff.
  - intros w. by eapply intersect_dfa_accepts.
Qed.

Lemma check_consistency_product_witness :
  ∃ dfa1 dfa2 product empty,
    decode text_loads (Text x0_json) = Return dfa1 ∧
    decode text_loads (Text x1_json) = Return dfa2 ∧
    intersect_dfa dfa1 dfa2 = Return product ∧
    is_language_empty product = Return empty ∧
    fst <$> check_consistency text_loads (Text x0_json) (Text x1_json)
    = Return (negb empty) ∧
    (negb empty = true ↔ ∃ w, accepts product w) ∧
    (∀ w, accepts product w ↔ accepts dfa1 w ∧ accepts dfa2 w).
Proof.
  apply (check_consistency_product text_loads (Text x0_json) (Text x1_json));
    by_computation.
Defined.

(** C2.  On a valid DFA, [is_language_empty] returns [true] exactly when no
    finite sequence of alphabet symbols drives the start state to an
    accepting state, and [false] exactly when an accept state is reachable
    from the start state in the transition graph. *)
Theorem is_language_empty_correct dfa :
  valid dfa →
  (is_language_empty dfa = Return true ↔ ¬ ∃ w, accepts dfa w) ∧
  (is_language_empty dfa = Return false ↔
     ∃ s, reachable dfa s ∧ s ∈ accept_states dfa).
Proof.
  intros Hvalid. destruct (is_language_empty_valid dfa Hvalid) as (b & -> & Hb).
  rewrite <-accepts_reachable, <-Hb. destruct b; split; split; done.
Qed.

Lemma is_language_empty_correct_witness :
  (is_language_empty x1_dfa = Return true ↔ ¬ ∃ w, accepts x1_dfa w) ∧
  (is_language_empty x1_dfa = Return false ↔
     ∃ s, reachable x1_dfa s ∧ s ∈ accept_states x1_dfa).
Proof. apply (is_language_empty_correct x1_dfa). by_computation. Defined.

(** C3.  For two valid DFAs over a shared alphabet, [intersect_dfa] returns
    a DFA whose states are all the pairs of operand states (as many as the
    product of the two counts, without repetition when the operands list
    their states without repetition), whose transition for [((s1, s2), a)]
    is the pair of the operands' transitions, whose start state is the pair
    of the start states and whose alphabet is that of the first operand. *)
Theorem intersect_dfa_structure dfa1 dfa2 :
  valid dfa1 → valid dfa2 → same_alphabet dfa1 dfa2 →
  ∃ product,
    intersect_dfa dfa1 dfa2 = Return product ∧
    (∀ s, s ∈ states product ↔
          ∃ s1 s2, s = Tup s1 s2 ∧ s1 ∈ states dfa1 ∧ s2 ∈ states dfa2) ∧
    length (states product) = length (states dfa1) * length (states dfa2) ∧
    (NoDup (states dfa1) → NoDup (states dfa2) → NoDup (states product)) ∧
    (∀ s1 s2 a, s1 ∈ states dfa1 → s2 ∈ states dfa2 → a ∈ alphabet dfa1 →
       ∃ n1 n2, lookup_transition dfa1 s1 a = Return n1 ∧
                lookup_transition dfa2 s2 a = Return n2 ∧
                lookup_transition product (Tup s1 s2) a = Return (Tup n1 n2)) ∧
    start_state product = Tup (start_state dfa1) (start_state dfa2) ∧
    alphabet product = alphabet dfa1.
Proof.
  intros Hv1 Hv2 Hsame.
  destruct (intersect_dfa_total dfa1 dfa2) as [p Hp]; [done..|].
  exists p. destruct (intersect_dfa_fields _ _ _ Hp) as (_ & Hst & Hal & Hs0 & _).
  split_and!; try done.
  - by apply elem_of_intersect_states.
  - by rewrite Hst, length_fmap, length_product_states.
  - intros Hnd1 Hnd2. rewrite Hst. apply NoDup_fmap_2; [apply _|].
    by apply NoDup_product_states.
  - by apply intersect_dfa_lookup.
Qed.

Lemma intersect_dfa_structure_witness :
  ∃ product,
    intersect_dfa x0_dfa x1_dfa = Return product ∧
    (∀ s, s ∈ states product ↔
          ∃ s1 s2, s = Tup s1 s2 ∧ s1 ∈ states x0_dfa ∧ s2 ∈ states x1_dfa) ∧
    length (states product) = length (states x0_dfa) * length (states x1_dfa) ∧
    (NoDup (states x0_dfa) → NoDup (states x1_dfa) → NoDup (states product)) ∧
    (∀ s1 s2 a, s1 ∈ states x0_dfa → s2 ∈ states x1_dfa → a ∈ alphabet x0_dfa →
       ∃ n1 n2, lookup_transition x0_dfa s1 a = Return n1 ∧
                lookup_transition x1_dfa s2 a = Return n2 ∧
                lookup_transition product (Tup s1 s2) a = Return (Tup n1 n2)) ∧
    start_state product = Tup (start_state x0_dfa) (start_state x1_dfa) ∧
    alphabet product = alphabet x0_dfa.
Proof. apply (intersect_dfa_structure x0_dfa x1_dfa); by_computation. Defined.

(** C4.  For two valid DFAs over a shared alphabet, a pair [(s1, s2)] is an
    accept state of the DFA that [intersect_dfa] returns exactly when [s1] is
    an accept state of the first and [s2] an accept state of the second. *)
Theorem intersect_dfa_accept_states dfa1 dfa2 :
  valid dfa1 → valid dfa2 → same_alphabet dfa1 dfa2 →
  ∃ product,
    intersect_dfa dfa1 dfa2 = Return product ∧
    ∀ s1 s2, Tup s1 s2 ∈ accept_states product ↔
             s1 ∈ accept_states dfa1 ∧ s2 ∈ accept_states dfa2.
Proof.
  intros Hv1 Hv2 Hsame.
  destruct (intersect_dfa_total dfa1 dfa2) as [p Hp]; [done..|].
  exists p. split; [done|]. intros s1 s2.
  rewrite (elem_of_intersect_accept_states _ _ _ Hp).
  destruct Hv1 as (_ & Hacc1 & _). destruct Hv2 as (_ & Hacc2 & _).
  rewrite Forall_forall in Hacc1. rewrite Forall_forall in Hacc2.
  split; [tauto|]. intros [? ?]. auto.
Qed.

Lemma intersect_dfa_accept_states_witness :
  ∃ product,
    intersect_dfa x0_dfa x1_dfa = Return product ∧
    ∀ s1 s2, Tup s1 s2 ∈ accept_states product ↔
             s1 ∈ accept_states x0_dfa ∧ s2 ∈ accept_states x1_dfa.
Proof. apply (intersect_dfa_accept_states x0_dfa x1_dfa); by_computation. Defined.

(** C5.  On every valid DFA, cyclic or not, [is_language_empty] returns;
    no state is appended to the queue twice, at most as many states are
    popped as the DFA lists, and at most [|states| * |alphabet|] transition
    lookups are made. *)
Theorem is_language_empty_terminates dfa :
  valid dfa →
  ∃ b t,
    is_language_empty_trace dfa = Return (b, t) ∧
    is_language_empty dfa = Return b ∧
    NoDup (enqueued t) ∧
    length (dequeued t) ≤ length (states dfa) ∧
    length (lookups t) ≤ length (states dfa) * length (alphabet dfa).
Proof.
  intros Hvalid.
  destruct (is_language_empty_trace_valid dfa Hvalid) as (b & t & Hrun).
  exists b, t. split; [done|]. split; [apply is_language_empty_Return; eauto|].
  apply is_language_empty_trace_accounts in Hrun as (Hnd & [q Hq] & Hreach & Hlook).
  assert (length (dequeued t) ≤ length (states dfa)) as Hdeq.
  { trans (length (enqueued t)); [rewrite Hq, length_app; lia|].
    apply submseteq_length, NoDup_submseteq; [done|].
    intros s Hs. by apply valid_reachable, Hreach. }
  split_and!; [done..|]. etrans; [exact Hlook|]. by apply Nat.mul_le_mono_r.
Qed.

Lemma is_language_empty_terminates_witness :
  ∃ b t,
    is_language_empty_trace x1_dfa = Return (b, t) ∧
    is_language_empty x1_dfa = Return b ∧
    NoDup (enqueued t) ∧
    length (dequeued t) ≤ length (states x1_dfa) ∧
    length (lookups t) ≤ length (states x1_dfa) * length (alphabet x1_dfa).
Proof. apply (is_language_empty_terminates x1_dfa). by_computation. Defined.

(** C6.  On two valid descriptions over the same alphabet,
    [check_consistency] returns the same boolean (and prints the same) in
    either order of its arguments. *)
Theorem check_consistency_symmetric {str : Type}
    (json_loads : str → outcome json) descr1 descr2 :
  valid_description json_loads descr1 → valid_description json_loads descr2 →
  shared_alphabet json_loads descr1 descr2 →
  ∃ r, check_consistency json_loads descr1 descr2 = Return r ∧
       check_consistency json_loads descr2 descr1 = Return r.
Proof.
  intros (dfa1 & H1 & Hv1)%valid_description_decode
         (dfa2 & H2 & Hv2)%valid_description_decode Hsame.
  unfold shared_alphabet in Hsame. rewrite H1, H2 in Hsame.
  destruct (check_consistency_valid json_loads descr1 descr2 dfa1 dfa2)
    as (b & Hb & Hiff); [done..|].
  destruct (check_consistency_valid json_loads descr2 descr1 dfa2 dfa1)
    as (b' & Hb' & Hiff'); [done..|by apply same_alphabet_sym|].
  exists (verdict (negb b)). split; [done|]. rewrite Hb'.
  assert (b = b') as ->; [|done].
  apply eq_true_iff_eq. rewrite Hiff, Hiff'. split; intros (w & ? & ?); eauto.
Qed.

Lemma check_consistency_symmetric_witness :
  ∃ r, check_consistency text_loads (Text x0_json) (Text x1_json) = Return r ∧
       check_consistency text_loads (Text x1_json) (Text x0_json) = Return r.
Proof.
  apply (check_consistency_symmetric text_loads (Text x0_json) (Text x1_json));
    by_computation.
Defined.

(** C7.  A valid description whose DFA accepts some word is consistent with
    itself: [check_consistency] returns [true] on it twice. *)
Theorem check_consistency_self {str : Type} (json_loads : str → outcome json)
    descr word :
  valid_description json_loads descr →
  description_accepts json_loads descr word →
  fst <$> check_consistency json_loads descr descr = Return true.
Proof.
  intros (dfa & Hd & Hv)%valid_description_decode Hacc.
  unfold description_accepts in Hacc. rewrite Hd in Hacc.
  destruct (check_consistency_valid json_loads descr descr dfa dfa)
    as (b & -> & Hiff);
    [done..| |].
  { split; apply Forall_forall; auto. }
  assert (b = true) as -> by (apply Hiff; eauto). done.
Qed.

Lemma check_consistency_self_witness :
  fst <$> check_consistency text_loads (Text x1_json) (Text x1_json)
  = Return true.
Proof.
  apply (check_consistency_self text_loads (Text x1_json) [Str "1"]);
    by_computation.
Defined.

(** C10.  When the start state is an accept state, [is_language_empty]
    returns [false] after popping the start state, without any transition
    lookup, whatever the transition table holds. *)
Theorem is_language_empty_start_accepting dfa :
  start_state dfa ∈ accept_states dfa →
  is_language_empty dfa = Return false ∧
  ∃ t, is_language_empty_trace dfa = Return (false, t) ∧
       dequeued t = [start_state dfa] ∧ lookups t = [].
Proof.
  intros Hacc.
  assert (is_language_empty_trace dfa
          = Return (false, mkTrace [start_state dfa] [start_state dfa] [])) as H.
  { unfold is_language_empty_trace. rewrite search_eq.
    by rewrite decide_True by done. }
  split; [|eauto]. unfold is_language_empty. by rewrite H.
Qed.

Lemma is_language_empty_start_accepting_witness :
  is_language_empty bare_dfa = Return false ∧
  ∃ t, is_language_empty_trace bare_dfa = Return (false, t) ∧
       dequeued t = [start_state bare_dfa] ∧ lookups t = [].
Proof. apply (is_language_empty_start_accepting bare_dfa). by_computation. Defined.

(** *** The decoder *)

(** C8, as stated, fails: [parse_dfa_json] returns a DFA object for the
    text of a document whose fields have the wrong types (nothing looks at
    the types); and the exception for a missing [start_state] field is the
    [KeyError] that an undefined transition raises, here with the same
    key. *)
Lemma parse_dfa_json_accepts_wrong_types :
  parse_dfa_json text_loads (Text wrong_type_json)
    = Return (mkDFA (JNum 3) (JArr [JStr "0"; JStr "1"]) (JArr [JStr "q0"])
                (JArr []) (JObj ∅)) ∧
  check_consistency text_loads (Text no_start_json) (Text x1_json)
    = Raise (KeyError (Str "start_state")) ∧
  has_fields no_row_json ∧
  check_consistency text_loads (Text no_row_json) (Text x1_json)
    = Raise (KeyError (Str "start_state")).
Proof.
  split_and!; [vm_compute; reflexivity..|by_computation|vm_compute; reflexivity].
Qed.

(** The five subscripts of [parse_dfa_json] and its call of the constructor,
    on the document that [json.loads] returned. *)
Local Abbreviation subscripts data :=
  (states ← json_subscript data "states";
   alphabet ← json_subscript data "alphabet";
   start_state ← json_subscript data "start_state";
   accept_states ← json_subscript data "accept_states";
   transitions ← json_subscript data "transitions";
   Return (mkDFA states alphabet start_state accept_states transitions)).

Lemma parse_dfa_json_loaded {str : Type} (json_loads : str → outcome json)
    descr data :
  json_loads descr = Return data →
  parse_dfa_json json_loads descr = subscripts data.
Proof. unfold parse_dfa_json. by intros ->. Qed.

Lemma subscripts_object o :
  subscripts (JObj o) =
  match o !! "states" with
  | None => Raise (KeyError (Str "states"))
  | Some s =>
  match o !! "alphabet" with
  | None => Raise (KeyError (Str "alphabet"))
  | Some a =>
  match o !! "start_state" with
  | None => Raise (KeyError (Str "start_state"))
  | Some q =>
  match o !! "accept_states" with
  | None => Raise (KeyError (Str "accept_states"))
  | Some f =>
  match o !! "transitions" with
  | None => Raise (KeyError (Str "transitions"))
  | Some t => Return (mkDFA s a q f t)
  end end end end end.
Proof.
  unfold json_subscript.
  destruct (o !! "states"); simpl; [|done].
  destruct (o !! "alphabet"); simpl; [|done].
  destruct (o !! "start_state"); simpl; [|done].
  destruct (o !! "accept_states"); simpl; [|done].
  destruct (o !! "transitions"); done.
Qed.

Lemma subscripts_fail data :
  ((∃ e, subscripts data = Raise e) ↔ ¬ has_fields data) ∧
  (∀ e, subscripts data = Raise e →
        match data with
        | JObj o =>
            ∃ before k after,
              fields = before ++ k :: after ∧ e = KeyError (Str k) ∧
              o !! k = None ∧ Forall (λ k', is_Some (o !! k')) before
        | _ => e = TypeError
        end) ∧
  (∀ o, data = JObj o → o !! "start_state" = None →
        ∃ k, k ∈ ["states"; "alphabet"; "start_state"] ∧
             subscripts data = Raise (KeyError (Str k))) ∧
  (has_fields data →
   ∃ s a q f t, subscripts data = Return (mkDFA s a q f t)).
Proof.
  destruct data as [| | | | |o];
    try (split_and!; [split; [by intros _ []|by exists TypeError]
                      |by intros e [= <-]|done|by intros []]).
  rewrite subscripts_object. unfold has_fields, fields.
  rewrite !Forall_cons, Forall_nil.
  destruct (o !! "states") as [s|] eqn:Hs.
  2:{ split_and!.
      - split; [intros _ [[? [=]] _]|intros _; eauto].
      - intros e [= <-]. exists [], "states", (tail fields). by split_and!.
      - intros o' [= <-] _. exists "states". split; [by left|done].
      - intros [[? [=]] _]. }
  destruct (o !! "alphabet") as [a|] eqn:Ha.
  2:{ split_and!.
      - split; [intros _ (_ & [? [=]] & _)|intros _; eauto].
      - intros e [= <-]. exists ["states"], "alphabet", (tail (tail fields)).
        split_and!; try done. constructor; [by rewrite Hs|constructor].
      - intros o' [= <-] _. exists "alphabet".
        split; [by right; left|done].
      - intros (_ & [? [=]] & _). }
  destruct (o !! "start_state") as [q|] eqn:Hq.
  2:{ split_and!.
      - split; [intros _ (_ & _ & [? [=]] & _)|intros _; eauto].
      - intros e [= <-].
        exists ["states"; "alphabet"], "start_state", (tail (tail (tail fields))).
        split_and!; try done.
        repeat constructor; by rewrite ?Hs, ?Ha.
      - intros o' [= <-] _. exists "start_state".
        split; [by right; right; left|done].
      - intros (_ & _ & [? [=]] & _). }
  destruct (o !! "accept_states") as [f|] eqn:Hf.
  2:{ split_and!.
      - split; [intros _ (_ & _ & _ & [? [=]] & _)|intros _; eauto].
      - intros e [= <-].
        exists ["states"; "alphabet"; "start_state"], "accept_states",
               ["transitions"].
        split_and!; try done.
        repeat constructor; by rewrite ?Hs, ?Ha, ?Hq.
      - intros o' [= <-]. by rewrite Hq.
      - intros (_ & _ & _ & [? [=]] & _). }
  destruct (o !! "transitions") as [t|] eqn:Ht.
  2:{ split_and!.
      - split; [intros _ (_ & _ & _ & _ & [? [=]] & _)|intros _; eauto].
      - intros e [= <-].
        exists ["states"; "alphabet"; "start_state"; "accept_states"],
               "transitions", [].
        split_and!; try done.
        repeat constructor; by rewrite ?Hs, ?Ha, ?Hq, ?Hf.
      - intros o' [= <-]. by rewrite Hq.
      - intros (_ & _ & _ & _ & [? [=]] & _). }
  split_and!.
  - split; [by intros [? [=]]|]. intros H. destruct H. by split_and!.
  - intros e [=].
  - intros o' [= <-]. by rewrite Hq.
  - intros _. by exists s, a, q, f, t.
Qed.

(** C8, amended.  [parse_dfa_json] fails with the exception of [json.loads]
    when the string cannot be decoded ([json.JSONDecodeError] on a string
    that is not a JSON text).  On a decoded document it fails exactly when
    the document is not an object or lacks one of the five keys; it raises
    [TypeError] in the first case and, in the second, [KeyError] with the
    first missing key in the order [states], [alphabet], [start_state],
    [accept_states], [transitions].  In particular it fails with a
    [KeyError] on every object that lacks [start_state].  The types of the
    fields are not examined. *)
Theorem parse_dfa_json_fails {str : Type} (json_loads : str → outcome json)
    (descr : str) :
  (∀ e, json_loads descr = Raise e →
        parse_dfa_json json_loads descr = Raise e) ∧
  (∀ data, json_loads descr = Return data →
     ((∃ e, parse_dfa_json json_loads descr = Raise e) ↔ ¬ has_fields data) ∧
     (∀ e, parse_dfa_json json_loads descr = Raise e →
           match data with
           | JObj o =>
               ∃ before k after,
                 fields = before ++ k :: after ∧ e = KeyError (Str k) ∧
                 o !! k = None ∧ Forall (λ k', is_Some (o !! k')) before
           | _ => e = TypeError
           end) ∧
     (∀ o, data = JObj o → o !! "start_state" = None →
           ∃ k, k ∈ ["states"; "alphabet"; "start_state"] ∧
                parse_dfa_json json_loads descr = Raise (KeyError (Str k))) ∧
     (has_fields data →
      ∃ s a q f t,
        parse_dfa_json json_loads descr = Return (mkDFA s a q f t))).
Proof.
  split.
  - intros e He. unfold parse_dfa_json. by rewrite He.
  - intros data Hdata. rewrite (parse_dfa_json_loaded _ _ _ Hdata).
    apply subscripts_fail.
Qed.

Lemma parse_dfa_json_fails_witness :
  parse_dfa_json text_loads NoText = Raise JSONDecodeError ∧
  ∃ k, k ∈ ["states"; "alphabet"; "start_state"] ∧
       parse_dfa_json text_loads (Text no_start_json)
       = Raise (KeyError (Str k)).
Proof.
  split.
  - by apply (proj1 (parse_dfa_json_fails text_loads NoText)).
  - unfold no_start_json.
    refine (proj1 (proj2 (proj2
              (proj2 (parse_dfa_json_fails text_loads (Text _)) _ eq_refl)))
              _ eq_refl _).
    vm_compute. reflexivity.
Defined.

(** *** The transition lookup *)

(** C9, as stated, fails: the lookup answers for a state that is not in
    [states] and a symbol that is not in [alphabet] when the table has the
    entry, and the search that queries such a state returns. *)
Lemma lookup_transition_ignores_states :
  (Str "b" ∉ states stray_dfa) ∧ (Str "1" ∉ alphabet stray_dfa) ∧
  lookup_transition stray_dfa (Str "b") (Str "1") = Return (Str "b") ∧
  is_language_empty_trace stray_dfa
    = Return (true, mkTrace [Str "b"] [Str "b"] [(Str "b", Str "0")]).
Proof. split_and!; [by_computation..|vm_compute; reflexivity|vm_compute; reflexivity]. Qed.

Lemma is_language_empty_trace_expanded dfa t s a :
  is_language_empty_trace dfa = Return (true, t) →
  reachable dfa s → a ∈ alphabet dfa →
  ∃ s', lookup_transition dfa s a = Return s'.
Proof.
  unfold is_language_empty_trace. intros Hrun Hs Ha. revert t Hrun.
  apply (search_inv_ind dfa
    (λ r, ∀ t, r = Return (true, t) →
               ∃ s', lookup_transition dfa s a = Return s'));
    [|done|done|apply search_inv_init].
  intros v t' Hinv t _.
  apply (search_inv_exhausted dfa v t' s Hinv) in Hs.
  destruct (inv_expanded dfa _ _ _ Hinv s Hs) as [_ Hsucc].
  destruct (Hsucc a Ha) as (s' & ? & _). eauto.
Qed.

Lemma intersect_dfa_Raise dfa1 dfa2 :
  (∃ e, intersect_dfa dfa1 dfa2 = Raise e) ↔
  ∃ s1 s2 a, s1 ∈ states dfa1 ∧ s2 ∈ states dfa2 ∧ a ∈ alphabet dfa1 ∧
    ((∃ e, lookup_transition dfa1 s1 a = Raise e) ∨
     (∃ e, lookup_transition dfa2 s2 a = Raise e)).
Proof.
  unfold intersect_dfa. split.
  - intros [e He].
    destruct (product_transitions dfa1 dfa2 (product_states dfa1 dfa2) ∅)
      as [nt|e'|] eqn:H; simpl in He; [done| |done].
    apply product_transitions_Raise in H
      as (s1 & s2 & a & [? ?]%elem_of_product_states & ? & Hfail).
    exists s1, s2, a. split_and!; [done..|]. destruct Hfail; eauto.
  - intros (s1 & s2 & a & H1 & H2 & Ha & Hfail).
    destruct (product_transitions_fails dfa1 dfa2 (product_states dfa1 dfa2) ∅
                s1 s2 a) as [e ->]; [by apply elem_of_product_states|done..|].
    by exists e.
Qed.

(** C9, amended.  The lookup [dfa.transitions[state][symbol]] raises
    [KeyError] exactly when the table has no entry for the pair, with the
    state as key when the state has no row and the symbol as key otherwise;
    [states] and [alphabet] are not consulted.  [intersect_dfa] raises it
    exactly when a pair of listed states and a symbol of the first alphabet
    have no entry in the table of an operand.  [is_language_empty] raises it
    only for a reachable, non-accepting state and a symbol of the alphabet,
    and does raise it when no accept state is reachable and some reachable
    state has no entry for some symbol of the alphabet. *)
Theorem undefined_transition :
  (∀ dfa s a,
     (∃ e, lookup_transition dfa s a = Raise e) ↔
     ¬ ∃ row s', transitions dfa !! s = Some row ∧ row !! a = Some s') ∧
  (∀ dfa s a e,
     lookup_transition dfa s a = Raise e →
     (transitions dfa !! s = None ∧ e = KeyError s) ∨
     (is_Some (transitions dfa !! s) ∧ e = KeyError a)) ∧
  (∀ dfa1 dfa2,
     (∃ e, intersect_dfa dfa1 dfa2 = Raise e) ↔
     ∃ s1 s2 a, s1 ∈ states dfa1 ∧ s2 ∈ states dfa2 ∧ a ∈ alphabet dfa1 ∧
       ((∃ e, lookup_transition dfa1 s1 a = Raise e) ∨
        (∃ e, lookup_transition dfa2 s2 a = Raise e))) ∧
  (∀ dfa e,
     is_language_empty dfa = Raise e →
     ∃ s a, reachable dfa s ∧ (s ∉ accept_states dfa) ∧ a ∈ alphabet dfa ∧
            lookup_transition dfa s a = Raise e) ∧
  (∀ dfa s a,
     (∀ s', reachable dfa s' → s' ∉ accept_states dfa) →
     reachable dfa s → a ∈ alphabet dfa →
     (∃ e, lookup_transition dfa s a = Raise e) →
     ∃ e, is_language_empty dfa = Raise e).
Proof.
  split_and!.
  - intros dfa s a. split.
    + intros [e He] (row & s' & Hrow & Hs').
      assert (lookup_transition dfa s a = Return s') as H
        by (apply lookup_transition_Return; eauto).
      congruence.
    + intros Hnone.
      destruct (lookup_transition dfa s a) as [s'|e|] eqn:H; [|eauto|].
      * apply lookup_transition_Return in H as (row & ? & ?).
        destruct Hnone. eauto.
      * by apply lookup_transition_typed in H.
  - intros dfa s a e [[? ?]|(row & Hrow & _ & ?)]%lookup_transition_Raise;
      [by left|right]. by rewrite Hrow.
  - apply intersect_dfa_Raise.
  - intros dfa e He. apply is_language_empty_trace_Raise.
    unfold is_language_empty in He.
    by destruct (is_language_empty_trace dfa) as [[b t]| |]; simplify_eq/=.
  - intros dfa s a Hnoacc Hs Ha [e He].
    unfold is_language_empty.
    destruct (is_language_empty_trace dfa) as [[[] t]|e'|] eqn:H; simpl.
    + destruct (is_language_empty_trace_expanded dfa t s a) as [s' Hs'];
        [done..|congruence].
    + apply is_language_empty_trace_sound in H as (s' & Hs' & Hacc).
      by apply Hnoacc in Hs'.
    + eauto.
    + by apply is_language_empty_trace_typed in H.
Qed.

(** ** The scenarios of the specification *)

(** The driver's strings [x0_json] and [x1_json] describe [x0_dfa] and
    [x1_dfa]. *)
Example decode_x0 : decode text_loads (Text x0_json) = Return x0_dfa.
Proof. by_computation. Qed.

Example decode_x1 : decode text_loads (Text x1_json) = Return x1_dfa.
Proof. by_computation. Qed.

(** Scenario 1: no word is accepted by both [w0] and [w1]. *)
Example check_w0_w1 :
  fst <$> check_consistency text_loads (Text w0_json) (Text w1_json)
  = Return false.
Proof. vm_compute. reflexivity. Qed.

(** Scenario 2: [x0] and [x1] accept a common word. *)
Example check_x0_x1 :
  fst <$> check_consistency text_loads (Text x0_json) (Text x1_json)
  = Return true.
Proof. vm_compute. reflexivity. Qed.

Example is_language_empty_loop :
  is_language_empty_trace loop_dfa
  = Return (true, mkTrace [Str "q"] [Str "q"]
                    [(Str "q", Str "0"); (Str "q", Str "1")]).
Proof. vm_compute. reflexivity. Qed.

(** * Further properties of the code *)

(** ** The search, on any DFA object *)

Section search_trace.
Context (dfa : DFA).

Lemma explore_lookups cur symbols v q t v' q' t' :
  explore dfa cur symbols v q t = Return (v', q', t') →
  lookups t' = lookups t ++ (pair cur <$> symbols).
Proof.
  revert v q t. induction symbols as [|a symbols IH]; intros v q t; simpl.
  - intros [= _ _ <-]. by rewrite app_nil_r.
  - destruct (lookup_transition dfa cur a) as [next| |]; simpl; [|done..].
    destruct (decide (next ∈ v)); intros ->%IH; simpl;
      by rewrite <-app_assoc.
Qed.

(** The loop invariant with the exact sequence of lookups. *)
Lemma search_trace_ind (Q : outcome (bool * trace) → Prop) :
  (∀ v t, search_inv dfa v [] t →
          lookups t = expansion dfa (dequeued t) → Q (Return (true, t))) →
  (∀ v cur q t,
     search_inv dfa v (cur :: q) t →
     lookups t = expansion dfa (dequeued t) → cur ∈ accept_states dfa →
     Q (Return (false, log_dequeue cur t))) →
  (∀ e, Q (Raise e)) →
  ∀ v q t, search_inv dfa v q t → lookups t = expansion dfa (dequeued t) →
           Q (search dfa v q t).
Proof.
  intros Hnil Haccept Hraise v q t.
  funelim (search dfa v q t); intros Hinv Hlookups.
  - by eapply Hnil.
  - by eapply Haccept.
  - match goal with
    | IH : ∀ Q : _ → Prop, _ |- _ =>
        apply IH; [done..|by eapply search_inv_step|]
    end.
    rewrite (explore_lookups _ _ _ _ _ _ _ _ Hexplore).
    pose proof (explore_Return _ _ _ _ _ _ _ _ _ Hexplore)
      as (_ & _ & _ & Hdeq & _).
    rewrite Hdeq. simpl. unfold expansion in *.
    by rewrite bind_app, bind_singleton, Hlookups.
  - apply Hraise.
  - exfalso. by eapply explore_typed.
Qed.
End search_trace.

Lemma is_language_empty_trace_init dfa :
  search_inv dfa {[start_state dfa]} [start_state dfa]
    (mkTrace [start_state dfa] [] []) ∧
  lookups (mkTrace [start_state dfa] [] [])
    = expansion dfa (dequeued (mkTrace [start_state dfa] [] [])).
Proof. split; [apply search_inv_init|done]. Qed.

(** X3.  Whenever [is_language_empty] returns, also on a DFA object whose
    table is partial or whose start state is not listed, it returns [False]
    exactly when some word over the alphabet is accepted. *)
Theorem is_language_empty_sound dfa b :
  is_language_empty dfa = Return b →
  (b = false ↔ ∃ w, accepts dfa w).
Proof.
  intros [t Hrun%is_language_empty_trace_sound]%is_language_empty_Return.
  rewrite accepts_reachable. destruct b; [|done].
  split; [done|]. intros (s & Hs & Hacc). by apply Hrun in Hs.
Qed.

Lemma is_language_empty_sound_witness :
  true = false ↔ ∃ w, accepts stray_dfa w.
Proof. apply (is_language_empty_sound stray_dfa true). by_computation. Defined.

(** X4.  A search that returns [True] has popped every state reachable from
    the start state, each once and no other, has left nothing in the queue,
    and has looked up every alphabet symbol, in the order of the alphabet,
    for each popped state in the order of the pops. *)
Theorem search_exhaustive dfa t :
  is_language_empty_trace dfa = Return (true, t) →
  NoDup (dequeued t) ∧ enqueued t = dequeued t ∧
  (∀ s, s ∈ dequeued t ↔ reachable dfa s) ∧
  lookups t = expansion dfa (dequeued t).
Proof.
  unfold is_language_empty_trace. revert t.
  destruct (is_language_empty_trace_init dfa) as [Hinit Hlook0].
  apply (search_trace_ind dfa
    (λ r, ∀ t, r = Return (true, t) →
       NoDup (dequeued t) ∧ enqueued t = dequeued t ∧
       (∀ s, s ∈ dequeued t ↔ reachable dfa s) ∧
       lookups t = expansion dfa (dequeued t))); [|done|done|done..].
  intros v t' Hinv Hlook t [= <-].
  pose proof (inv_queue dfa _ _ _ Hinv) as Hq. rewrite app_nil_r in Hq.
  split_and!; [|done| |done].
  - rewrite <-Hq. apply (inv_nodup dfa _ _ _ Hinv).
  - intros s. split; [|by apply (search_inv_exhausted dfa v)].
    intros Hs. apply (inv_reachable dfa _ _ _ Hinv), (inv_visited dfa _ _ _ Hinv).
    by rewrite Hq.
Qed.

Lemma search_exhaustive_witness :
  NoDup [Str "q"] ∧ [Str "q"] = [Str "q"] ∧
  (∀ s, s ∈ [Str "q"] ↔ reachable loop_dfa s) ∧
  [(Str "q", Str "0"); (Str "q", Str "1")] = expansion loop_dfa [Str "q"].
Proof.
  apply (search_exhaustive loop_dfa
           (mkTrace [Str "q"] [Str "q"] [(Str "q", Str "0"); (Str "q", Str "1")])).
  by_computation.
Defined.

(** X5.  A search that returns [False] stops at the first accepting state it
    pops: that state is reachable, the states popped before it are not
    accepting, and the lookups made are those of expanding these earlier
    states, none for the accepting one. *)
Theorem search_short_circuit dfa t :
  is_language_empty_trace dfa = Return (false, t) →
  ∃ expanded s,
    dequeued t = expanded ++ [s] ∧ s ∈ accept_states dfa ∧ reachable dfa s ∧
    Forall (λ s', s' ∉ accept_states dfa) expanded ∧
    lookups t = expansion dfa expanded.
Proof.
  unfold is_language_empty_trace. revert t.
  destruct (is_language_empty_trace_init dfa) as [Hinit Hlook0].
  apply (search_trace_ind dfa
    (λ r, ∀ t, r = Return (false, t) →
       ∃ expanded s,
         dequeued t = expanded ++ [s] ∧ s ∈ accept_states dfa ∧
         reachable dfa s ∧ Forall (λ s', s' ∉ accept_states dfa) expanded ∧
         lookups t = expansion dfa expanded)); [done| |done|done..].
  intros v cur q t' Hinv Hlook Hacc t [= <-].
  exists (dequeued t'), cur. simpl. split_and!; [done..| | |done].
  - apply (inv_reachable dfa _ _ _ Hinv), (inv_visited dfa _ _ _ Hinv).
    rewrite (inv_queue dfa _ _ _ Hinv). apply elem_of_app. right. by left.
  - apply Forall_forall. intros s Hs. by apply (inv_expanded dfa _ _ _ Hinv).
Qed.

Lemma search_short_circuit_witness :
  ∃ expanded s,
    [Str "r0"; Str "r1"] = expanded ++ [s] ∧ s ∈ accept_states x1_dfa ∧
    reachable x1_dfa s ∧ Forall (λ s', s' ∉ accept_states x1_dfa) expanded ∧
    [(Str "r0", Str "0"); (Str "r0", Str "1")] = expansion x1_dfa expanded.
Proof.
  apply (search_short_circuit x1_dfa
           (mkTrace [Str "r0"; Str "r1"] [Str "r0"; Str "r1"]
              [(Str "r0", Str "0"); (Str "r0", Str "1")])).
  by_computation.
Defined.

(** X6.  With an empty alphabet the search looks at the start state only:
    [is_language_empty] returns [True] exactly when the start state is not
    an accept state, whatever the table holds. *)
Theorem is_language_empty_no_symbol dfa :
  alphabet dfa = [] →
  is_language_empty dfa
  = Return (bool_decide (start_state dfa ∉ accept_states dfa)).
Proof.
  intros Halpha. unfold is_language_empty, is_language_empty_trace.
  rewrite search_eq.
  destruct (decide (start_state dfa ∈ accept_states dfa)) as [Hacc|Hacc].
  - simpl. by rewrite bool_decide_eq_false_2 by (by intros []).
  - rewrite Halpha. simpl. rewrite search_eq. simpl.
    by rewrite bool_decide_eq_true_2.
Qed.

Lemma is_language_empty_no_symbol_witness :
  is_language_empty silent_dfa
  = Return (bool_decide (start_state silent_dfa ∉ accept_states silent_dfa)).
Proof. apply (is_language_empty_no_symbol silent_dfa). reflexivity. Defined.

Lemma is_language_empty_missing_row dfa :
  start_state dfa ∉ accept_states dfa →
  transitions dfa !! start_state dfa = None →
  alphabet dfa ≠ [] →
  is_language_empty dfa = Raise (KeyError (start_state dfa)).
Proof.
  intros Hacc Hrow Halpha. unfold is_language_empty, is_language_empty_trace.
  rewrite search_eq, decide_False by done.
  destruct (alphabet dfa) as [|a symbols]; [done|]. simpl.
  unfold lookup_transition, subscript. by rewrite Hrow.
Qed.

(** X7.  When the start state is not an accept state, has no row in the
    transition table and the alphabet is not empty, [is_language_empty]
    raises [KeyError] with the start state as key. *)
Theorem is_language_empty_no_row dfa :
  start_state dfa ∉ accept_states dfa →
  transitions dfa !! start_state dfa = None →
  alphabet dfa ≠ [] →
  is_language_empty dfa = Raise (KeyError (start_state dfa)).
Proof. apply is_language_empty_missing_row. Qed.

Lemma is_language_empty_no_row_witness :
  is_language_empty no_row_dfa = Raise (KeyError (start_state no_row_dfa)).
Proof.
  apply (is_language_empty_no_row no_row_dfa); [by_computation|reflexivity|done].
Defined.

(** ** The product, on any two DFA objects *)

Lemma intersect_dfa_rows dfa1 dfa2 product :
  intersect_dfa dfa1 dfa2 = Return product →
  (∀ k, k ∉ states product → transitions product !! k = None) ∧
  (∀ s1 s2, s1 ∈ states dfa1 → s2 ∈ states dfa2 →
     ∃ row, transitions product !! Tup s1 s2 = Some row ∧
            product_row_spec dfa1 dfa2 s1 s2 (alphabet dfa1) ∅ row).
Proof.
  intros Hp. destruct (intersect_dfa_fields _ _ _ Hp) as (Htable & Hst & _).
  apply product_transitions_Return in Htable as [Hin Hout]. split.
  - intros k Hk. rewrite Hout; [done|]. intros s1 s2 Hmem ->. apply Hk.
    rewrite Hst. by apply elem_of_tuple_fmap.
  - intros s1 s2 H1 H2. apply Hin. by apply elem_of_product_states.
Qed.

(** X8.  The table of the DFA that [intersect_dfa] returns has a row for
    each of its states and for nothing else, and each row has an entry for
    each symbol of the first operand's alphabet and for nothing else. *)
Theorem intersect_dfa_table dfa1 dfa2 product :
  intersect_dfa dfa1 dfa2 = Return product →
  (∀ k, is_Some (transitions product !! k) ↔ k ∈ states product) ∧
  (∀ k row a, transitions product !! k = Some row →
              (is_Some (row !! a) ↔ a ∈ alphabet dfa1)).
Proof.
  intros Hp. destruct (intersect_dfa_rows _ _ _ Hp) as [Hout Hin].
  assert (∀ k, is_Some (transitions product !! k) → k ∈ states product) as Hdom.
  { intros k [row Hrow]. destruct (decide (k ∈ states product)) as [|Hk]; [done|].
    rewrite (Hout k Hk) in Hrow. done. }
  split.
  - intros k. split; [apply Hdom|].
    intros (s1 & s2 & -> & H1 & H2)%(elem_of_intersect_states _ _ _ Hp).
    destruct (Hin s1 s2 H1 H2) as (row & -> & _). eauto.
  - intros k row a Hrow.
    assert (k ∈ states product) as Hk by (apply Hdom; eauto).
    apply (elem_of_intersect_states _ _ _ Hp) in Hk as (s1 & s2 & -> & H1 & H2).
    destruct (Hin s1 s2 H1 H2) as (row' & Hrow' & Hspec).
    rewrite Hrow in Hrow'. injection Hrow' as <-. specialize (Hspec a).
    destruct (decide (a ∈ alphabet dfa1)) as [Ha|Ha].
    + destruct Hspec as (n1 & n2 & _ & _ & ->). split; eauto.
    + rewrite Hspec, lookup_empty. split; [by intros [? ?]|done].
Qed.

Lemma intersect_dfa_table_witness :
  (∀ k, is_Some (transitions loop_product !! k) ↔ k ∈ states loop_product) ∧
  (∀ k row a, transitions loop_product !! k = Some row →
              (is_Some (row !! a) ↔ a ∈ alphabet loop_dfa)).
Proof. apply (intersect_dfa_table loop_dfa loop_dfa loop_product). by_computation. Defined.

Lemma lookup_transition_with_alphabet symbols dfa s a :
  lookup_transition (with_alphabet symbols dfa) s a = lookup_transition dfa s a.
Proof. done. Qed.

Lemma product_row_with_alphabet a dfa1 dfa2 s1 s2 symbols nt :
  product_row dfa1 (with_alphabet a dfa2) s1 s2 symbols nt
  = product_row dfa1 dfa2 s1 s2 symbols nt.
Proof.
  revert nt. induction symbols as [|b symbols IH]; intros nt; simpl; [done|].
  rewrite lookup_transition_with_alphabet.
  destruct (lookup_transition dfa1 s1 b); simpl; [|done..].
  destruct (lookup_transition dfa2 s2 b); simpl; [|done..].
  apply IH.
Qed.

Lemma product_transitions_with_alphabet a dfa1 dfa2 new_states nt :
  product_transitions dfa1 (with_alphabet a dfa2) new_states nt
  = product_transitions dfa1 dfa2 new_states nt.
Proof.
  revert nt. induction new_states as [|[s1 s2] new_states IH]; intros nt; simpl;
    [done|].
  rewrite product_row_with_alphabet.
  destruct (product_row dfa1 dfa2 s1 s2 (alphabet dfa1) (<[Tup s1 s2:=∅]> nt));
    simpl; [apply IH|done..].
Qed.

(** [intersect_dfa] does not read the alphabet of its second operand. *)
Lemma intersect_dfa_with_alphabet a dfa1 dfa2 :
  intersect_dfa dfa1 (with_alphabet a dfa2) = intersect_dfa dfa1 dfa2.
Proof.
  unfold intersect_dfa, product_states, product_accept_states. simpl.
  by rewrite product_transitions_with_alphabet.
Qed.

Lemma run_with_alphabet a dfa s w :
  run (with_alphabet a dfa) s w = run dfa s w.
Proof.
  revert s. induction w as [|b w IH]; intros s; simpl; [done|].
  rewrite lookup_transition_with_alphabet.
  destruct (lookup_transition dfa s b); simpl; [apply IH|done..].
Qed.

Lemma valid_with_alphabet a dfa :
  valid dfa → Forall (.∈ alphabet dfa) a → valid (with_alphabet a dfa).
Proof.
  intros (Hstart & Hacc & Htotal) Ha. split_and!; [done..|]. simpl.
  apply Forall_forall. intros s Hs. apply Forall_forall. intros b Hb.
  rewrite Forall_forall in Htotal. specialize (Htotal s Hs).
  rewrite Forall_forall in Htotal. apply Htotal.
  rewrite Forall_forall in Ha. by apply Ha.
Qed.

Lemma same_alphabet_with_alphabet dfa1 dfa2 :
  same_alphabet dfa1 (with_alphabet (alphabet dfa1) dfa2).
Proof. split; apply Forall_forall; auto. Qed.

(** X9.  The product of two valid DFAs is a valid DFA as soon as every
    symbol of the first operand's alphabet is a symbol of the second's:
    [intersect_dfa] returns, the start pair and the accepting pairs are
    among the states, and the table is total on states and alphabet. *)
Theorem intersect_dfa_preserves_valid dfa1 dfa2 :
  valid dfa1 → valid dfa2 → Forall (.∈ alphabet dfa2) (alphabet dfa1) →
  ∃ product, intersect_dfa dfa1 dfa2 = Return product ∧ valid product.
Proof.
  intros Hv1 Hv2 Hsub.
  pose proof (valid_with_alphabet _ _ Hv2 Hsub) as Hv2'.
  pose proof (same_alphabet_with_alphabet dfa1 dfa2) as Hsame.
  destruct (intersect_dfa_total _ _ Hv1 Hv2' Hsame) as [p Hp].
  exists p. split; [by rewrite <-(intersect_dfa_with_alphabet (alphabet dfa1))|].
  by eapply intersect_dfa_valid.
Qed.

Lemma intersect_dfa_preserves_valid_witness :
  ∃ product, intersect_dfa zero_dfa x1_dfa = Return product ∧ valid product.
Proof. apply (intersect_dfa_preserves_valid zero_dfa x1_dfa); by_computation. Defined.

(** X10.  Under the same conditions the DFA that [intersect_dfa] returns
    accepts exactly the words that both operands accept. *)
Theorem intersect_dfa_language dfa1 dfa2 :
  valid dfa1 → valid dfa2 → Forall (.∈ alphabet dfa2) (alphabet dfa1) →
  ∃ product,
    intersect_dfa dfa1 dfa2 = Return product ∧
    ∀ w, accepts product w ↔ accepts dfa1 w ∧ accepts dfa2 w.
Proof.
  intros Hv1 Hv2 Hsub.
  pose proof (valid_with_alphabet _ _ Hv2 Hsub) as Hv2'.
  pose proof (same_alphabet_with_alphabet dfa1 dfa2) as Hsame.
  destruct (intersect_dfa_total _ _ Hv1 Hv2' Hsame) as [p Hp].
  exists p. split; [by rewrite <-(intersect_dfa_with_alphabet (alphabet dfa1))|].
  intros w. rewrite (intersect_dfa_accepts _ _ _ Hp w Hv1 Hv2' Hsame).
  unfold accepts. simpl. rewrite run_with_alphabet.
  rewrite Forall_forall in Hsub.
  rewrite !Forall_forall. split; intros ([? ?] & [? ?]); split_and!; auto.
Qed.

Lemma intersect_dfa_language_witness :
  ∃ product,
    intersect_dfa zero_dfa x1_dfa = Return product ∧
    ∀ w, accepts product w ↔ accepts zero_dfa w ∧ accepts x1_dfa w.
Proof. apply (intersect_dfa_language zero_dfa x1_dfa); by_computation. Defined.

(** X11.  When the start state of an operand is not in its list of states
    (in particular when an operand lists no state) and the first alphabet is
    not empty, the search of the product that [intersect_dfa] returns raises
    [KeyError] with the pair of start states as key. *)
Theorem intersect_dfa_unlisted_start dfa1 dfa2 product :
  intersect_dfa dfa1 dfa2 = Return product →
  start_state dfa1 ∉ states dfa1 ∨ start_state dfa2 ∉ states dfa2 →
  alphabet dfa1 ≠ [] →
  is_language_empty product
  = Raise (KeyError (Tup (start_state dfa1) (start_state dfa2))).
Proof.
  intros Hp Hstart Halpha.
  destruct (intersect_dfa_fields _ _ _ Hp) as (_ & _ & Hal & Hs0 & _).
  assert (start_state product ∉ states product) as Hnot.
  { rewrite Hs0. intros (s1 & s2 & [= <- <-] & ? & ?)%(elem_of_intersect_states _ _ _ Hp).
    tauto. }
  rewrite <-Hs0. apply is_language_empty_missing_row.
  - rewrite Hs0. intros [[? ?] _]%(elem_of_intersect_accept_states _ _ _ Hp).
    tauto.
  - by apply (intersect_dfa_rows _ _ _ Hp).
  - by rewrite Hal.
Qed.

Lemma intersect_dfa_unlisted_start_witness :
  is_language_empty (mkDFA [] [Str "0"] (Tup (Str "q") (Str "r0")) [] ∅)
  = Raise (KeyError (Tup (start_state stateless_dfa) (start_state x1_dfa))).
Proof.
  apply (intersect_dfa_unlisted_start stateless_dfa x1_dfa); [by_computation| |done].
  left. by_computation.
Defined.

(** ** The decoder and the orchestration *)

(** X12.  [parse_dfa_json] reads its five keys and nothing else: a document
    with a further key is decoded as the document without it. *)
Theorem parse_dfa_json_other_keys {str : Type} (json_loads : str → outcome json)
    descr descr' (o : gmap string json) k v :
  json_loads descr = Return (JObj o) →
  json_loads descr' = Return (JObj (<[k := v]> o)) →
  k ∉ fields →
  parse_dfa_json json_loads descr' = parse_dfa_json json_loads descr.
Proof.
  intros H H' Hk.
  rewrite (parse_dfa_json_loaded _ _ _ H), (parse_dfa_json_loaded _ _ _ H').
  rewrite !subscripts_object.
  rewrite !lookup_insert_ne; [done|..]; intros ->; apply Hk; unfold fields;
    repeat constructor.
Qed.

Lemma parse_dfa_json_other_keys_witness :
  parse_dfa_json text_loads
    (Text (JObj (<["comment" := JStr "at least one 1"]> x1_object)))
  = parse_dfa_json text_loads (Text (JObj x1_object)).
Proof.
  apply (parse_dfa_json_other_keys text_loads _ _ x1_object
           "comment" (JStr "at least one 1")); [reflexivity..|by_computation].
Defined.

(** X13.  On two valid descriptions over a shared alphabet,
    [check_consistency] returns [True] exactly when some word is accepted by
    both described DFAs, and [False] exactly when none is. *)
Theorem check_consistency_common_word {str : Type}
    (json_loads : str → outcome json) descr1 descr2 :
  valid_description json_loads descr1 → valid_description json_loads descr2 →
  shared_alphabet json_loads descr1 descr2 →
  (fst <$> check_consistency json_loads descr1 descr2 = Return true ↔
     ∃ w, description_accepts json_loads descr1 w ∧
          description_accepts json_loads descr2 w) ∧
  (fst <$> check_consistency json_loads descr1 descr2 = Return false ↔
     ¬ ∃ w, description_accepts json_loads descr1 w ∧
            description_accepts json_loads descr2 w).
Proof.
  intros (dfa1 & H1 & Hv1)%valid_description_decode
         (dfa2 & H2 & Hv2)%valid_description_decode Hsame.
  unfold shared_alphabet in Hsame. unfold description_accepts.
  rewrite H1, H2 in *.
  destruct (check_consistency_valid json_loads descr1 descr2 dfa1 dfa2)
    as (b & -> & Hiff); [done..|].
  rewrite <-Hiff. destruct b; simpl; split; split; done.
Qed.

Lemma check_consistency_common_word_witness :
  (fst <$> check_consistency text_loads (Text x0_json) (Text x1_json)
   = Return true ↔
     ∃ w, description_accepts text_loads (Text x0_json) w ∧
          description_accepts text_loads (Text x1_json) w) ∧
  (fst <$> check_consistency text_loads (Text x0_json) (Text x1_json)
   = Return false ↔
     ¬ ∃ w, description_accepts text_loads (Text x0_json) w ∧
            description_accepts text_loads (Text x1_json) w).
Proof.
  apply (check_consistency_common_word text_loads (Text x0_json) (Text x1_json));
    by_computation.
Defined.

Lemma reachable_targets dfa s :
  reachable dfa s → s ∈ ({[start_state dfa]} ∪ targets dfa : gset value).
Proof.
  induction 1 as [|s a s' _ _ _ Hlookup]; [set_solver|].
  apply elem_of_union. right.
  apply lookup_transition_Return in Hlookup as (row & Hrow & Ha).
  unfold targets. apply elem_of_union_list. exists (map_img row). split.
  - apply list_elem_of_fmap. exists (s, row). split; [done|].
    by apply elem_of_map_to_list.
  - apply elem_of_map_img. eauto.
Qed.

(** X14.  On any DFA object, valid or not, a search that returns has popped
    at most one state more than there are distinct states among the values
    of the transition table. *)
Theorem search_dequeue_bound dfa b t :
  is_language_empty_trace dfa = Return (b, t) →
  length (dequeued t) ≤ S (size (targets dfa)).
Proof.
  intros (Hnd & [q Hq] & Hreach & _)%is_language_empty_trace_accounts.
  trans (length (enqueued t)); [rewrite Hq, length_app; lia|].
  trans (size ({[start_state dfa]} ∪ targets dfa : gset value)).
  - unfold size, set_size. simpl.
    apply submseteq_length, NoDup_submseteq; [done|].
    intros s Hs. apply elem_of_elements. by apply reachable_targets, Hreach.
  - rewrite size_union_alt, size_singleton. simpl.
    apply le_n_S, subseteq_size. set_solver.
Qed.

Lemma search_dequeue_bound_witness :
  length [Str "r0"; Str "r1"] ≤ S (size (targets x1_dfa)).
Proof.
  apply (search_dequeue_bound x1_dfa false
           (mkTrace [Str "r0"; Str "r1"] [Str "r0"; Str "r1"]
              [(Str "r0", Str "0"); (Str "r0", Str "1")])).
  by_computation.
Defined.

(** ** The driver *)

(** The output of the driver, run on its two documents: the arguments of its
    [print] calls and of those of [check_consistency] in between, the second
    of the driver's with its two arguments joined by a blank. *)
Example main_output :
  main = Return ["Checking w0 and w1...." +:+ newline;
                 "False" +:+ newline;
                 "The two input DFAs are inconsistent.";
                 "Consistent? False"].
Proof. vm_compute. reflexivity. Qed.
